(** * goa service runtime: a shallow embedding of [service.go]

    The development follows the Go source function by function.  Go values
    that live behind pointers (the application, its controllers, the backing
    arrays of middleware slices, the versions) are kept in an explicit
    [World]; request handlers thread the per-request [Context] and may
    panic. *)

From Stdlib Require Import ZArith Ascii String DecimalString DecimalZ DecimalPos.
From stdpp Require Import base option list strings gmap.

Local Open Scope string_scope.
Local Open Scope nat_scope.
Local Open Scope list_scope.

(* ================================================================== *)
(** * Part I: the program                                              *)
(* ================================================================== *)

(** ** Errors *)

(** Go's [error] interface, restricted to the two dynamic types that
    [service.go] tells apart: a pointer to [BadRequestError] (the type assertion in the
    two built-in error handlers) and every other error, such as the values
    made by [fmt.Errorf]. *)
Inductive error : Type :=
| BadRequestError (msg : string)
| errorString (msg : string).

(** [e.Error()] *)
Definition Error (e : error) : string :=
  match e with
  | BadRequestError msg => msg
  | errorString msg => msg
  end.

(** The type assertion of [e] to a pointer to [BadRequestError]. *)
Definition isBadRequestError (e : error) : bool :=
  match e with
  | BadRequestError _ => true
  | errorString _ => false
  end.

(** [fmt.Errorf(msg)] without verbs. *)
Definition Errorf (msg : string) : error := errorString msg.

(** ** Results of calls that may panic *)

Inductive outcome (A : Type) : Type :=
| Done (a : A)
| Panic (v : string).
Arguments Done {A} a.
Arguments Panic {A} v.

#[global] Instance outcome_ret : MRet outcome := fun A a => Done a.
#[global] Instance outcome_bind : MBind outcome := fun A B f m =>
  match m with
  | Done a => f a
  | Panic v => Panic v
  end.

(** ** Logging *)

(** A log15 logger is a list of context pairs; [New] extends it. *)
Definition Logger : Type := list (string * string).

Record LogRecord : Type := mkLogRecord {
  lr_lvl : string;
  lr_msg : string;
  lr_ctx : list (string * string)
}.

Definition Logger_New (l : Logger) (k v : string) : Logger := l ++ [(k, v)].

(** The package-level [Log], made by [log.New()] in [init]. *)
Definition Log : Logger := [].

(** ** The request context *)

Record Request : Type := mkRequest {
  Method : string;
  URLPath : string;
  ContentLength : Z
}.

(** Modelled from the spec: the request context ([Context], [NewContext],
    [ResponseWritten], [ResponseStatus], [RespondBytes], [Header],
    [GetNames], [Get]) is declared outside [service.go].  It holds the
    request, the path parameters, the cancellable scope it was derived in,
    the request logger, the response headers and a response status that
    starts unset (0) and moves to one terminal value when a response is
    written.  [ctx_Log] collects the log records emitted while the request
    is handled. *)
Record Context : Type := mkContext {
  ctx_Context : nat;
  ctx_Request : Request;
  ctx_Params : list (string * string);
  ctx_Logger : Logger;
  ctx_Header : gmap string string;
  ctx_Status : Z;
  ctx_Body : string;
  ctx_Log : list LogRecord
}.

(** State-and-panic computations over the request context: the shape of
    every Go function that receives a pointer to a [Context]. *)
Definition exec (A : Type) : Type := Context -> Context * outcome A.

#[global] Instance exec_ret : MRet exec := fun A a ctx => (ctx, Done a).
#[global] Instance exec_bind : MBind exec := fun A B f m ctx =>
  match m ctx with
  | (ctx1, Done a) => f a ctx1
  | (ctx1, Panic v) => (ctx1, Panic v)
  end.

(** Modelled from the spec: [NewContext] builds a fresh context with no
    response written. *)
Definition NewContext (gctx : nat) (r : Request) (params : list (string * string))
  : Context :=
  {| ctx_Context := gctx; ctx_Request := r; ctx_Params := params;
     ctx_Logger := []; ctx_Header := ∅; ctx_Status := 0%Z; ctx_Body := "";
     ctx_Log := [] |}.

Definition set_Logger (l : Logger) (ctx : Context) : Context :=
  {| ctx_Context := ctx_Context ctx; ctx_Request := ctx_Request ctx;
     ctx_Params := ctx_Params ctx; ctx_Logger := l;
     ctx_Header := ctx_Header ctx; ctx_Status := ctx_Status ctx;
     ctx_Body := ctx_Body ctx; ctx_Log := ctx_Log ctx |}.

(** [ctx.ResponseStatus()] *)
Definition ResponseStatus (ctx : Context) : Z := ctx_Status ctx.

(** [ctx.ResponseWritten()] *)
Definition ResponseWritten (ctx : Context) : bool :=
  negb (ResponseStatus ctx =? 0)%Z.

(** [ctx.Header().Set(k, v)] *)
Definition Header_Set (k v : string) : exec unit := fun ctx =>
  ({| ctx_Context := ctx_Context ctx; ctx_Request := ctx_Request ctx;
      ctx_Params := ctx_Params ctx; ctx_Logger := ctx_Logger ctx;
      ctx_Header := <[k := v]> (ctx_Header ctx); ctx_Status := ctx_Status ctx;
      ctx_Body := ctx_Body ctx; ctx_Log := ctx_Log ctx |}, Done tt).

(** Modelled from the spec: [RespondBytes] is the single response-write
    primitive.  The status is set at most once: a write on a context that
    already carries a response is refused and reported as an error, and
    leaves the response as it was. *)
Definition RespondBytes (code : Z) (body : string) : exec (option error) :=
  fun ctx =>
    if ResponseWritten ctx
    then (ctx, Done (Some (errorString "response already written")))
    else ({| ctx_Context := ctx_Context ctx; ctx_Request := ctx_Request ctx;
             ctx_Params := ctx_Params ctx; ctx_Logger := ctx_Logger ctx;
             ctx_Header := ctx_Header ctx; ctx_Status := code;
             ctx_Body := body; ctx_Log := ctx_Log ctx |}, Done None).

(** A record written to a logger while a request is handled. *)
Definition emit (l : Logger) (lvl msg : string) (kv : list (string * string))
  : exec unit := fun ctx =>
  ({| ctx_Context := ctx_Context ctx; ctx_Request := ctx_Request ctx;
      ctx_Params := ctx_Params ctx; ctx_Logger := ctx_Logger ctx;
      ctx_Header := ctx_Header ctx; ctx_Status := ctx_Status ctx;
      ctx_Body := ctx_Body ctx;
      ctx_Log := ctx_Log ctx ++ [mkLogRecord lvl msg (l ++ kv)] |}, Done tt).

(** [ctx.GetNames()] and [ctx.Get(name)] *)
Definition GetNames (ctx : Context) : list string := (ctx_Params ctx).*1.

Fixpoint assoc (k : string) (kvs : list (string * string)) : string :=
  match kvs with
  | [] => ""
  | (k', v) :: rest => if String.eqb k k' then v else assoc k rest
  end.

Definition Get (ctx : Context) (k : string) : string := assoc k (ctx_Params ctx).

(** ** Handlers, error handlers, middleware *)

(** [type Handler]: a function from a context pointer to an [error]. *)
Definition Handler : Type := exec (option error).

(** [type ErrorHandler]: a procedure on a context pointer and an [error]. *)
Definition ErrorHandler : Type := error -> exec unit.

(** [type Middleware func(Handler) Handler] *)
Definition Middleware : Type := Handler -> Handler.

(** [DefaultErrorHandler] *)
Definition DefaultErrorHandler : ErrorHandler := fun e =>
  status ← (if isBadRequestError e
            then _ ← Header_Set "Content-Type" "application/json"; mret 400%Z
            else mret 500%Z);
  err ← RespondBytes status (Error e);
  match err with
  | Some err =>
      emit Log "error" "failed to send default error handler response"
        [("err", Error err)]
  | None => mret tt
  end.

(** [TerseErrorHandler] *)
Definition TerseErrorHandler : ErrorHandler := fun e =>
  '(status, body) ← (if isBadRequestError e
                     then _ ← Header_Set "Content-Type" "application/json";
                          mret (400%Z, Error e)
                     else mret (500%Z, ""));
  err ← RespondBytes status body;
  match err with
  | Some err =>
      emit Log "error" "failed to send terse error handler response"
        [("err", Error err)]
  | None => mret tt
  end.

(** ** Slices of middleware

    A Go slice is a window on a backing array; [append] writes in place
    when the capacity allows and the result then shares the array with its
    argument.  All slices of [service.go] start at offset 0, so a slice is
    the address of its array and a length; the array records its capacity
    and the cells written so far. *)

Record array : Type := mkArray {
  arr_data : list Middleware;
  arr_cap : nat
}.

Record slice : Type := mkSlice {
  sl_ptr : option nat;
  sl_len : nat
}.

(** The nil slice: the zero value of a slice field. *)
Definition nil_slice : slice := mkSlice None 0.

Definition slice_array (σ : list array) (s : slice) : option array :=
  l ← sl_ptr s; σ !! l.

(** [cap(s)] *)
Definition slice_cap (σ : list array) (s : slice) : nat :=
  match slice_array σ s with
  | Some a => arr_cap a
  | None => 0
  end.

(** The elements of [s], in order. *)
Definition elems (σ : list array) (s : slice) : list Middleware :=
  match slice_array σ s with
  | Some a => take (sl_len s) (arr_data a)
  | None => []
  end.

(** [s[i]]; out of range panics. *)
Definition index (σ : list array) (s : slice) (i : nat) : outcome Middleware :=
  if i <? sl_len s
  then match slice_array σ s ≫= (fun a => arr_data a !! i) with
       | Some m => Done m
       | None => Panic "index out of range"
       end
  else Panic "index out of range".

(** The capacity of a grown array: the runtime doubles the old capacity
    of a short slice unless more is asked for (the rounding of the result
    to an allocation size class is left out; the properties below only use
    that the new capacity is large enough). *)
Definition growcap (old needed : nat) : nat :=
  if old + old <? needed then needed else old + old.

(** [append(s, xs...)] *)
Definition append (σ : list array) (s : slice) (xs : list Middleware)
  : list array * slice :=
  let n := sl_len s + length xs in
  let grown :=
    (σ ++ [mkArray (elems σ s ++ xs) (growcap (slice_cap σ s) n)],
     mkSlice (Some (length σ)) n) in
  match sl_ptr s, slice_array σ s with
  | Some l, Some a =>
      if n <=? arr_cap a
      then (<[l := mkArray (take (sl_len s) (arr_data a) ++ xs ++ drop n (arr_data a))
                           (arr_cap a)]> σ,
            mkSlice (Some l) n)
      else grown
  | _, _ => if n =? 0 then (σ, s) else grown
  end.

(** ** Cancellable scopes

    Go's [context] package, as far as [service.go] uses it: scopes form a
    tree, [WithCancel] derives a child (born cancelled under a cancelled
    parent) and cancelling a scope cancels all its descendants.  A scope is
    named by its index in the store. *)

Record scope : Type := mkScope {
  sc_parent : option nat;
  sc_done : bool
}.

(** [RootContext], made in [init] from [context.Background()]. *)
Definition RootContext : nat := 0.

Definition init_scopes : list scope := [mkScope None false].

(** Whether [ctx.Done()] is closed. *)
Definition is_done (ss : list scope) (id : nat) : bool :=
  match ss !! id with
  | Some sc => sc_done sc
  | None => false
  end.

(** [context.WithCancel(parent)]: the new scope; its cancel function is
    [cancel] at the returned id. *)
Definition WithCancel (parent : nat) (ss : list scope) : nat * list scope :=
  (length ss, ss ++ [mkScope (Some parent) (is_done ss parent)]).

Fixpoint descends (ss : list scope) (fuel : nat) (target i : nat) : bool :=
  bool_decide (i = target) ||
  match fuel with
  | O => false
  | S fuel' =>
      match ss !! i ≫= sc_parent with
      | Some p => descends ss fuel' target p
      | None => false
      end
  end.

(** Calling the cancel function of scope [target]. *)
Definition cancel (target : nat) (ss : list scope) : list scope :=
  imap (fun i sc =>
          mkScope (sc_parent sc) (sc_done sc || descends ss (length ss) target i)) ss.

(** ** Versions, the mux, controllers and the application *)

(** The two cells [HandleError] reads: the controller's error handler and
    its application's. *)
Record ErrorHandlers : Type := mkErrorHandlers {
  eh_ctrl : option ErrorHandler;
  eh_app : option ErrorHandler
}.

(** The closure returned by [HandleFunc]: the variables it captures.  The
    composed [middleware] is built when [HandleFunc] runs; the error-handler
    cells it reaches through the captured controller pointer are read when
    it is invoked, hence the argument. *)
Record HandleFn : Type := mkHandleFn {
  hf_ctrl : nat;
  hf_name : string;
  hf_d : option Handler;
  hf_middleware : ErrorHandlers -> Handler;
  hf_chain : slice;
  hf_ml : nat
}.

(** Modelled from the spec: the mux ([ServeMux], [NewMux], [Handle]) is
    declared outside [service.go]; it registers a (method, path pattern)
    pair with a handler. *)
Definition ServeMux : Type := list (string * string * HandleFn).

Definition NewMux : ServeMux := [].

Definition Handle (method path : string) (handle : HandleFn) (mux : ServeMux)
  : ServeMux := mux ++ [(method, path, handle)].

(** Modelled from the spec: [decoderPool] and [encoderPool] are declared
    outside [service.go]; a pool caches the codec instances built by the
    factory given at registration. *)
Record decoderPool : Type := mkDecoderPool { dp_cached : list string }.
Record encoderPool : Type := mkEncoderPool { ep_cached : list string }.

Record version : Type := mkVersion {
  ver_name : string;
  ver_mux : ServeMux;
  ver_decoderPools : gmap string decoderPool;
  ver_encoderPools : gmap string encoderPool;
  ver_encodableContentTypes : list string
}.

(** [type Application struct]: pointers are addresses in the [World];
    [app_version] is the embedded pointer to the default version and
    [app_versions] the map of versions, both nil ([None]) until set. *)
Record Application : Type := mkApplication {
  app_Logger : Logger;
  app_name : string;
  app_errorHandler : option ErrorHandler;
  app_middleware : slice;
  app_version : option nat;
  app_versions : option (gmap string nat)
}.

(** [type ApplicationController struct]; its [app] pointer is the
    application of the [World]. *)
Record ApplicationController : Type := mkApplicationController {
  ctrl_Logger : Logger;
  ctrl_errorHandler : option ErrorHandler;
  ctrl_middleware : slice
}.

(** The process state: the heap objects reachable from the application,
    the application itself, the records logged outside request handling,
    and the scope store behind [RootContext]. *)
Record World : Type := mkWorld {
  arrays : list array;
  vheap : list version;
  ctrls : list ApplicationController;
  app : Application;
  wlog : list LogRecord;
  scopes : list scope
}.

Definition set_arrays (σ : list array) (w : World) : World :=
  mkWorld σ (vheap w) (ctrls w) (app w) (wlog w) (scopes w).
Definition set_vheap (vs : list version) (w : World) : World :=
  mkWorld (arrays w) vs (ctrls w) (app w) (wlog w) (scopes w).
Definition set_ctrls (cs : list ApplicationController) (w : World) : World :=
  mkWorld (arrays w) (vheap w) cs (app w) (wlog w) (scopes w).
Definition set_app (a : Application) (w : World) : World :=
  mkWorld (arrays w) (vheap w) (ctrls w) a (wlog w) (scopes w).
Definition set_wlog (l : list LogRecord) (w : World) : World :=
  mkWorld (arrays w) (vheap w) (ctrls w) (app w) l (scopes w).
Definition set_scopes (ss : list scope) (w : World) : World :=
  mkWorld (arrays w) (vheap w) (ctrls w) (app w) (wlog w) ss.

(** [New] *)
Definition New (name : string) : Application :=
  {| app_Logger := Logger_New Log "app" name;
     app_name := name;
     app_errorHandler := Some DefaultErrorHandler;
     app_middleware := nil_slice;
     app_version := None;
     app_versions := None |}.

(** The process after [init] and [New(name)]. *)
Definition boot (name : string) : World :=
  mkWorld [] [] [] (New name) [] init_scopes.

(** [Cancel] *)
Definition Cancel (w : World) : World :=
  set_scopes (cancel RootContext (scopes w)) w.


(** [(app *Application) Use] *)
Definition Application_Use (m : Middleware) (w : World) : World :=
  let '(σ, s) := append (arrays w) (app_middleware (app w)) [m] in
  let a := app w in
  set_app (mkApplication (app_Logger a) (app_name a) (app_errorHandler a) s
             (app_version a) (app_versions a))
          (set_arrays σ w).

(** [(app *Application) ErrorHandler] *)
Definition Application_ErrorHandler (a : Application) : option ErrorHandler :=
  app_errorHandler a.

(** [(app *Application) SetErrorHandler] *)
Definition Application_SetErrorHandler (handler : option ErrorHandler) (w : World)
  : World :=
  let a := app w in
  set_app (mkApplication (app_Logger a) (app_name a) handler (app_middleware a)
             (app_version a) (app_versions a)) w.

(** [app.Info(msg, ctx...)] *)
Definition Info (msg : string) (kv : list (string * string)) (w : World) : World :=
  set_wlog (wlog w ++ [mkLogRecord "info" msg (app_Logger (app w) ++ kv)]) w.

(** [newVersion]; assigning into a nil map panics. *)
Definition newVersion (name : string) (w : World) : World * outcome nat :=
  match app_versions (app w) with
  | None => (w, Panic "assignment to entry in nil map")
  | Some m =>
      let l := length (vheap w) in
      let v := {| ver_name := name; ver_mux := NewMux; ver_decoderPools := ∅;
                  ver_encoderPools := ∅; ver_encodableContentTypes := [] |} in
      let a := app w in
      let w1 := set_app (mkApplication (app_Logger a) (app_name a)
                           (app_errorHandler a) (app_middleware a) (app_version a)
                           (Some (<[name := l]> m)))
                        (set_vheap (vheap w ++ [v]) w) in
      match app_versions (app w1) ≫= (.!! name) with
      | Some l' => (w1, Done l')
      | None => (w1, Panic "nil version")
      end
  end.

(** [GetVersion] *)
Definition GetVersion (name : string) (w : World) : World * outcome nat :=
  let a := app w in
  let w1 := match app_versions a with
            | None => set_app (mkApplication (app_Logger a) (app_name a)
                                 (app_errorHandler a) (app_middleware a)
                                 (app_version a) (Some ∅)) w
            | Some _ => w
            end in
  match app_versions (app w1) ≫= (.!! name) with
  | Some ver => (w1, Done ver)
  | None => newVersion name w1
  end.

(** [(ver *version) ServeMux], called on the application through the
    embedded pointer: a nil pointer panics when [ver.mux] is read. *)
Definition ServeMux_of (w : World) : outcome ServeMux :=
  match app_version (app w) ≫= (vheap w !!.) with
  | Some ver => Done (ver_mux ver)
  | None => Panic "invalid memory address or nil pointer dereference"
  end.

(** [(ver *version) Version] *)
Definition Version (ver : version) : string := ver_name ver.

(** [NewController] *)
Definition NewController (resName : string) (w : World) : World * nat :=
  let logger := Logger_New (app_Logger (app w)) "ctrl" resName in
  (set_ctrls (ctrls w ++ [mkApplicationController logger None nil_slice]) w,
   length (ctrls w)).

(** [(ctrl *ApplicationController) Use] *)
Definition ApplicationController_Use (c : nat) (m : Middleware) (w : World)
  : World * outcome unit :=
  match ctrls w !! c with
  | Some ctrl =>
      let '(σ, s) := append (arrays w) (ctrl_middleware ctrl) [m] in
      (set_ctrls (<[c := mkApplicationController (ctrl_Logger ctrl)
                            (ctrl_errorHandler ctrl) s]> (ctrls w))
                 (set_arrays σ w), Done tt)
  | None => (w, Panic "invalid memory address or nil pointer dereference")
  end.

(** [MiddlewareChain] *)
Definition MiddlewareChain (c : nat) (w : World) : World * outcome slice :=
  match ctrls w !! c with
  | Some ctrl =>
      let '(σ, s) := append (arrays w) (app_middleware (app w))
                       (elems (arrays w) (ctrl_middleware ctrl)) in
      (set_arrays σ w, Done s)
  | None => (w, Panic "invalid memory address or nil pointer dereference")
  end.

(** [(ctrl *ApplicationController) ErrorHandler] *)
Definition ApplicationController_ErrorHandler (ctrl : ApplicationController)
  : option ErrorHandler := ctrl_errorHandler ctrl.

(** [(ctrl *ApplicationController) SetErrorHandler] *)
Definition ApplicationController_SetErrorHandler (c : nat)
    (handler : option ErrorHandler) (w : World) : World * outcome unit :=
  match ctrls w !! c with
  | Some ctrl =>
      (set_ctrls (<[c := mkApplicationController (ctrl_Logger ctrl) handler
                            (ctrl_middleware ctrl)]> (ctrls w)) w, Done tt)
  | None => (w, Panic "invalid memory address or nil pointer dereference")
  end.

(** The error-handler cells reachable from controller [ctrl]. *)
Definition handlers_of (w : World) (ctrl : ApplicationController) : ErrorHandlers :=
  mkErrorHandlers (ctrl_errorHandler ctrl) (app_errorHandler (app w)).

(** [HandleError] *)
Definition HandleError (eh : ErrorHandlers) (err : error) : exec unit :=
  match eh_ctrl eh with
  | Some handler => handler err
  | None =>
      match eh_app eh with
      | Some handler => handler err
      | None => mret tt
      end
  end.

(** ** Building and serving an action *)

Definition gets {A} (f : Context -> A) : exec A := fun ctx => (ctx, Done (f ctx)).
Definition modify (f : Context -> Context) : exec unit := fun ctx => (f ctx, Done tt).
Definition lift {A} (o : outcome A) : exec A := fun ctx => (ctx, o).

(** The innermost handler of [HandleFunc] (the first value of its
    [middleware] variable): runs the action unless a response was written,
    hands an action error to [HandleError], and returns nil. *)
Definition terminal (h : Handler) (eh : ErrorHandlers) : Handler :=
  written ← gets ResponseWritten;
  _ ← (if negb written
       then err ← h;
            match err with
            | Some err => HandleError eh err
            | None => mret tt
            end
       else mret tt);
  mret None.

(** The loop [for i := range chain { x = chain[ml-i-1](x) }]; [wrap] is
    the application of one middleware to the accumulator. *)
Definition wrap_loop {T} (wrap : Middleware -> T -> T) (σ : list array)
    (chain : slice) (ml : nat) (init : T) : outcome T :=
  foldl (fun acc i => x ← acc; m ← index σ chain (ml - i - 1); mret (wrap m x))
        (Done init) (seq 0 (sl_len chain)).

(** [(ctrl *ApplicationController) HandleFunc]: the part that runs when the
    action is mounted. *)
Definition HandleFunc (c : nat) (name : string) (h : Handler) (d : option Handler)
    (w : World) : World * outcome HandleFn :=
  let middleware := terminal h in
  match MiddlewareChain c w with
  | (w1, Done chain) =>
      let ml := sl_len chain in
      (w1, middleware ← wrap_loop (fun m x eh => m (x eh)) (arrays w1) chain ml
                           middleware;
           mret (mkHandleFn c name d middleware chain ml))
  | (w1, Panic v) => (w1, Panic v)
  end.

Definition dquote : string := String "034"%char EmptyString.
Definition quoted (s : string) : string := dquote +:+ s +:+ dquote.

(** The handler that replaces the chain's innermost handler when the
    payload cannot be decoded; the body is the result of [fmt.Sprintf] on
    the format with the keys kind and msg and the verb [%s]. *)
Definition invalidPayload (err : error) : Handler :=
  _ ← RespondBytes 400%Z
        ("{" +:+ quoted "kind" +:+ ":" +:+ quoted "invalid request" +:+ "," +:+
         quoted "msg" +:+ ":" +:+ dquote +:+ "invalid JSON: " +:+ Error err +:+
         dquote +:+ "}");
  mret None.

(** The body of the function returned by [HandleFunc], after the context
    is built, up to and including the call of the chain: [σ] is the memory
    the captured [chain] is read from, [ctrl] the captured controller. *)
Definition invoke_chain (hf : HandleFn) (σ : list array) (ctrl : ApplicationController)
    (eh : ErrorHandlers) : exec (option error) :=
  _ ← modify (set_Logger (Logger_New (ctrl_Logger ctrl) "action" (hf_name hf)));
  r ← gets ctx_Request;
  err ← match hf_d hf with
        | Some d => if (0 <? ContentLength r)%Z then d else mret None
        | None => mret None
        end;
  handler ← match err with
            | Some err =>
                lift (wrap_loop (fun m x => m x) σ (hf_chain hf) (hf_ml hf)
                        (invalidPayload err))
            | None => mret (hf_middleware hf eh)
            end;
  handler.

(** The last statement of the returned function: make sure a response is
    sent back to the client. *)
Definition respond_unhandled (eh : ErrorHandlers) : exec unit :=
  status ← gets ResponseStatus;
  if (status =? 0)%Z
  then HandleError eh (Errorf "unhandled request")
  else mret tt.

Definition dispatch (hf : HandleFn) (σ : list array) (ctrl : ApplicationController)
    (eh : ErrorHandlers) : exec unit :=
  _ ← invoke_chain hf σ ctrl eh;
  respond_unhandled eh.

(** The first statement of the returned function: derive the request
    scope from [RootContext]. *)
Definition serve_begin (w : World) : nat * World :=
  let '(gctx, ss) := WithCancel RootContext (scopes w) in (gctx, set_scopes ss w).

(** The deferred [cancel()]. *)
Definition serve_end (gctx : nat) (w : World) : World :=
  set_scopes (cancel gctx (scopes w)) w.

(** The function returned by [HandleFunc], applied to a request. *)
Definition serve (hf : HandleFn) (r : Request) (params : list (string * string))
    (w : World) : World * (Context * outcome unit) :=
  let '(gctx, w1) := serve_begin w in
  let ctx := NewContext gctx r params in
  let res := match ctrls w1 !! hf_ctrl hf with
             | Some ctrl => dispatch hf (arrays w1) ctrl (handlers_of w1 ctrl) ctx
             | None => (ctx, Panic "invalid memory address or nil pointer dereference")
             end in
  (serve_end gctx w1, res).

(** ** Serving files *)

(** What [ServeFiles] asks of the operating system and the standard
    library: [os.Stat] (its error, if any), [filepath.Join] and
    [http.ServeFile]. *)
Record OS : Type := mkOS {
  os_Stat : string -> option error;
  filepath_Join : string -> string -> string;
  http_ServeFile : string -> exec unit
}.

(** [strings.Contains] *)
Fixpoint Contains (s substr : string) : bool :=
  String.prefix substr s ||
  match s with
  | EmptyString => false
  | String _ s' => Contains s' substr
  end.

(** The action mounted by [ServeFiles]. *)
Definition serveFile (os : OS) (logger : Logger) (filename : string) : Handler :=
  params ← gets GetNames;
  fullpath ← match params with
             | p :: _ =>
                 suffix ← gets (fun ctx => Get ctx p);
                 mret (filepath_Join os filename suffix)
             | [] => mret filename
             end;
  r ← gets ctx_Request;
  _ ← emit logger "info" "serve" [("path", URLPath r); ("filename", fullpath)];
  _ ← http_ServeFile os fullpath;
  mret None.

(** [app.ServeMux().Handle(method, path, handle)] *)
Definition ServeMux_Handle (method path : string) (handle : HandleFn) (w : World)
  : World * outcome unit :=
  match ServeMux_of w, app_version (app w) with
  | Done mux, Some l =>
      (set_vheap (alter (fun ver =>
                    mkVersion (ver_name ver) (Handle method path handle mux)
                      (ver_decoderPools ver) (ver_encoderPools ver)
                      (ver_encodableContentTypes ver)) l (vheap w)) w,
       Done tt)
  | Panic v, _ => (w, Panic v)
  | _, None => (w, Panic "invalid memory address or nil pointer dereference")
  end.

(** [ServeFiles] *)
Definition ServeFiles (os : OS) (path filename : string) (w : World)
  : World * outcome (option error) :=
  if Contains path ":"
  then (w, Done (Some (Errorf
         "path may only include wildcards that match the entire end of the URL (e.g. *filepath)")))
  else
    match os_Stat os filename with
    | Some err => (w, Done (Some (Errorf ("ServeFiles: " +:+ Error err))))
    | None =>
        let w1 := Info "mount" [("file", filename); ("route", "GET " +:+ path)] w in
        let '(w2, ctrl) := NewController "FileServer" w1 in
        match HandleFunc ctrl "Serve" (serveFile os (app_Logger (app w)) filename)
                None w2 with
        | (w3, Done handle) =>
            match ServeMux_Handle "GET" path handle w3 with
            | (w4, Done _) => (w4, Done None)
            | (w4, Panic v) => (w4, Panic v)
            end
        | (w3, Panic v) => (w3, Panic v)
        end
    end.

(** ** Programs against the API *)

(** One call of the package's API; [Call_ServeBegin] and [Call_ServeEnd]
    are the two ends of a request in flight. *)
Inductive call : Type :=
| Call_Use (m : Middleware)
| Call_SetErrorHandler (handler : option ErrorHandler)
| Call_GetVersion (name : string)
| Call_NewController (resName : string)
| Call_ControllerUse (c : nat) (m : Middleware)
| Call_ControllerSetErrorHandler (c : nat) (handler : option ErrorHandler)
| Call_MiddlewareChain (c : nat)
| Call_HandleFunc (c : nat) (name : string) (h : Handler) (d : option Handler)
| Call_ServeFiles (os : OS) (path filename : string)
| Call_Serve (hf : HandleFn) (r : Request) (params : list (string * string))
| Call_ServeBegin
| Call_ServeEnd (gctx : nat)
| Call_Cancel.

Definition step (w : World) (k : call) : World :=
  match k with
  | Call_Use m => Application_Use m w
  | Call_SetErrorHandler handler => Application_SetErrorHandler handler w
  | Call_GetVersion name => (GetVersion name w).1
  | Call_NewController resName => (NewController resName w).1
  | Call_ControllerUse c m => (ApplicationController_Use c m w).1
  | Call_ControllerSetErrorHandler c handler =>
      (ApplicationController_SetErrorHandler c handler w).1
  | Call_MiddlewareChain c => (MiddlewareChain c w).1
  | Call_HandleFunc c name h d => (HandleFunc c name h d w).1
  | Call_ServeFiles os path filename => (ServeFiles os path filename w).1
  | Call_Serve hf r params => (serve hf r params w).1
  | Call_ServeBegin => (serve_begin w).2
  | Call_ServeEnd gctx => serve_end gctx w
  | Call_Cancel => Cancel w
  end.

Definition run_calls (ks : list call) (w : World) : World := foldl step w ks.

Definition sets_error_handler (k : call) : bool :=
  match k with
  | Call_SetErrorHandler _ | Call_ControllerSetErrorHandler _ _ => true
  | _ => false
  end.

(** ** Notions used in the statements *)

(** The application-wide middleware, in order. *)
Definition app_chain (w : World) : list Middleware :=
  elems (arrays w) (app_middleware (app w)).

(** The middleware of controller [c], in order. *)
Definition ctrl_chain (w : World) (c : nat) : list Middleware :=
  match ctrls w !! c with
  | Some ctrl => elems (arrays w) (ctrl_middleware ctrl)
  | None => []
  end.

(** [compose [m1; ...; mn] h] is [m1 (... (mn h))]: the first middleware
    is outermost. *)
Definition compose (ms : list Middleware) (h : Handler) : Handler :=
  foldr (fun m x => m x) h ms.

(** A middleware with logic before and after the handler it wraps. *)
Definition decorate (pre post : exec unit) : Middleware := fun next =>
  _ ← pre; r ← next; _ ← post; mret r.

(** Running a list of steps in order. *)
Definition in_order (steps : list (exec unit)) : exec unit :=
  foldr (fun f k => _ ← f; k) (mret tt) steps.


(** A slice is well formed in a memory when its array exists and its
    length is within the cells written. *)
Definition wf_slice (σ : list array) (s : slice) : Prop :=
  match sl_ptr s with
  | Some l => ∃ a, σ !! l = Some a ∧ sl_len s ≤ length (arr_data a)
  | None => sl_len s = 0
  end.

(** The slices held by the application and by its controllers are well
    formed and no two of them share an array. *)
Record wf_world (w : World) : Prop := mkWf {
  wf_app : wf_slice (arrays w) (app_middleware (app w));
  wf_ctrl : ∀ c ctrl, ctrls w !! c = Some ctrl →
            wf_slice (arrays w) (ctrl_middleware ctrl);
  wf_sep_app : ∀ c ctrl l, ctrls w !! c = Some ctrl →
               sl_ptr (ctrl_middleware ctrl) = Some l →
               sl_ptr (app_middleware (app w)) ≠ Some l;
  wf_sep_ctrl : ∀ c1 c2 ctrl1 ctrl2 l, c1 ≠ c2 →
                ctrls w !! c1 = Some ctrl1 → ctrls w !! c2 = Some ctrl2 →
                sl_ptr (ctrl_middleware ctrl1) = Some l →
                sl_ptr (ctrl_middleware ctrl2) ≠ Some l
}.

(** Memory only grows: arrays stay where they are and never lose
    written cells. *)
Definition mem_le (σ σ' : list array) : Prop :=
  ∀ l a, σ !! l = Some a →
    ∃ a', σ' !! l = Some a' ∧ length (arr_data a) ≤ length (arr_data a').

(** The monotone part of a call's effect: memory grows and controllers
    stay. *)
Definition grows (w w' : World) : Prop :=
  mem_le (arrays w) (arrays w') ∧
  ∀ c, is_Some (ctrls w !! c) → is_Some (ctrls w' !! c).

Ltac exec_unfold :=
  unfold mbind, mret, exec_bind, exec_ret, outcome_bind, outcome_ret in *; simpl in *.

(** The chains of [w'] are those of [w]. *)
Definition same_chains (w w' : World) : Prop :=
  app_chain w' = app_chain w ∧
  ∀ c, is_Some (ctrls w !! c) → ctrl_chain w' c = ctrl_chain w c.

(** The middleware a call registers application-wide, and on controller
    [c]. *)
Definition registers_app (k : call) : list Middleware :=
  match k with
  | Call_Use m => [m]
  | _ => []
  end.

Definition registers_ctrl (c : nat) (k : call) : list Middleware :=
  match k with
  | Call_ControllerUse c' m => if decide (c' = c) then [m] else []
  | _ => []
  end.

(** The handler [HandleError] ends up calling, if any. *)
Definition effective_handler (eh : ErrorHandlers) : option ErrorHandler :=
  match eh_ctrl eh with
  | Some handler => Some handler
  | None => eh_app eh
  end.


(** The version registered under [name], if any. *)
Definition version_of (w : World) (name : string) : option nat :=
  app_versions (app w) ≫= (.!! name).

(** The versions of [w] are still registered in [w'], under the same
    names and at the same addresses. *)
Definition keeps_versions (w w' : World) : Prop :=
  (∀ name l, version_of w name = Some l → version_of w' name = Some l) ∧
  (∀ l v, vheap w !! l = Some v →
     ∃ v', vheap w' !! l = Some v' ∧ ver_name v' = ver_name v).

(** The scopes of [ss] are still in [ss'], under the same parents, and
    stay cancelled once cancelled. *)
Definition keeps_scopes (ss ss' : list scope) : Prop :=
  ∀ i sc, ss !! i = Some sc →
    ∃ sc', ss' !! i = Some sc' ∧ sc_parent sc' = sc_parent sc ∧
           (sc_done sc = true → sc_done sc' = true).

(** ** Scenarios *)

(** A middleware that records when it is entered and left. *)
Definition note (s : string) : exec unit := emit [] "dbug" s [].
Definition tracer (s : string) : Middleware :=
  decorate (note ("enter " +:+ s)) (note ("exit " +:+ s)).

(** An action that writes nothing and returns nil, and one that returns
    an error. *)
Definition idle : Handler := mret None.
Definition refuse (msg : string) : Handler := mret (Some (errorString msg)).

(** A request with a body of [n] bytes. *)
Definition post (n : Z) : Request := mkRequest "POST" "/" n.

(** A disk holding the files [present]. *)
Definition disk (present : list string) : OS :=
  mkOS (fun f => if bool_decide (f ∈ present) then None
                 else Some (errorString ("stat " +:+ f +:+ ": no such file or directory")))
       (fun dir file => dir +:+ "/" +:+ file)
       (fun file => _ ← RespondBytes 200%Z file; mret tt).

(** Mounting an action and serving one request right away. *)
Definition mount_and_serve (c : nat) (name : string) (h : Handler)
    (d : option Handler) (r : Request) (w : World) : option (Context * outcome unit) :=
  match HandleFunc c name h d w with
  | (w1, Done hf) => Some (serve hf r [] w1).2
  | (_, Panic _) => None
  end.

(** An application with one controller and no middleware. *)
Definition cellar : World := run_calls [Call_NewController "bottles"] (boot "cellar").

Definition bottles : ApplicationController :=
  mkApplicationController [("app", "cellar"); ("ctrl", "bottles")] None nil_slice.

(** The same after the application's error handler is set to nil. *)
Definition silent_cellar : World :=
  run_calls [Call_SetErrorHandler None; Call_NewController "bottles"] (boot "cellar").

(** An application with one middleware and a controller with one of its
    own. *)
Definition shop : World :=
  run_calls [Call_Use (tracer "m1"); Call_NewController "bottles";
             Call_ControllerUse 0 (tracer "a")] (boot "cellar").

Definition shop_bottles : ApplicationController :=
  mkApplicationController [("app", "cellar"); ("ctrl", "bottles")] None
    (mkSlice (Some 1) 1).

(** An application with three middleware and two controllers with one
    middleware each. *)
Definition busy : World :=
  run_calls [Call_Use (tracer "m1"); Call_Use (tracer "m2"); Call_Use (tracer "m3");
             Call_NewController "bottles"; Call_NewController "accounts";
             Call_ControllerUse 0 (tracer "a"); Call_ControllerUse 1 (tracer "b")]
            (boot "cellar").


Definition show_closure : HandleFn :=
  mkHandleFn 0 "show" None (terminal idle) nil_slice 0.

Definition fresh_context (r : Request) : Context := NewContext 1 r [].

Definition action_context (name : string) (r : Request) : Context :=
  set_Logger [("app", "cellar"); ("ctrl", "bottles"); ("action", name)]
    (fresh_context r).

(** The messages logged while a request was served. *)
Definition messages (res : Context * outcome unit) : list string :=
  map lr_msg (ctx_Log res.1).

(** ** Further notions used in the statements *)

(** From [w] to [w'] no error handler was set: the application's handler
    and those of the controllers of [w] are the same, and the controllers
    made since have none. *)
Definition keeps_handlers (w w' : World) : Prop :=
  app_errorHandler (app w') = app_errorHandler (app w) ∧
  (∀ c ctrl, ctrls w !! c = Some ctrl →
     ∃ ctrl', ctrls w' !! c = Some ctrl' ∧
              ctrl_errorHandler ctrl' = ctrl_errorHandler ctrl) ∧
  (∀ c ctrl', ctrls w' !! c = Some ctrl' → ctrls w !! c = None →
     ctrl_errorHandler ctrl' = None).

(** Every registered version is an object of the heap that carries the
    name it is registered under. *)
Definition versions_named (w : World) : Prop :=
  ∀ name l, version_of w name = Some l →
    ∃ v, vheap w !! l = Some v ∧ ver_name v = name.

(** The scope store of the package: the root has no parent and every
    other scope is a child of the root. *)
Definition flat_scopes (ss : list scope) : Prop :=
  (∃ sc, ss !! RootContext = Some sc ∧ sc_parent sc = None) ∧
  ∀ i sc, ss !! i = Some sc → i ≠ RootContext → sc_parent sc = Some RootContext.

(** The calls that cancel the root scope or the scope [g]. *)
Definition cancels (g : nat) (k : call) : bool :=
  match k with
  | Call_Cancel => true
  | Call_ServeEnd g' => bool_decide (g' = g ∨ g' = RootContext)
  | _ => false
  end.

(** The first [k] cells of array [l] are below the length of every slice
    of the application and of its controllers that lives in that array:
    no append on these slices writes them. *)
Definition below_owners (w : World) (l k : nat) : Prop :=
  (sl_ptr (app_middleware (app w)) = Some l → k ≤ sl_len (app_middleware (app w))) ∧
  ∀ c ctrl, ctrls w !! c = Some ctrl → sl_ptr (ctrl_middleware ctrl) = Some l →
            k ≤ sl_len (ctrl_middleware ctrl).

(** The first [k] cells of array [l] read the same in [σ'] as in [σ]. *)
Definition keeps_cells (σ σ' : list array) (l k : nat) : Prop :=
  ∀ a, σ !! l = Some a →
    ∃ a', σ' !! l = Some a' ∧ take k (arr_data a') = take k (arr_data a).

(** ** The generator of the skeleton main ([goagen/gen_main/generator.go]) *)

(** Go's [int], 64 bits wide, wraps around. *)
Definition wrap64 (z : Z) : Z := ((z + 2 ^ 63) mod 2 ^ 64 - 2 ^ 63)%Z.

(** The verb [%d] of [fmt.Sprintf]. *)
Definition itoa (z : Z) : string := NilZero.string_of_int (Z.to_int z).

(** [tempvar]: the state is the package variable [tempCount]. *)
Definition tempvar (tempCount : Z) : Z * string :=
  let tempCount := wrap64 (tempCount + 1) in
  if (tempCount =? 1)%Z then (tempCount, "c")
  else (tempCount, "c" +:+ itoa tempCount).

(** The names that [k] calls of [tempvar] in a row return, with the
    counter they leave. *)
Fixpoint tempvars (k : nat) (tempCount : Z) : Z * list string :=
  match k with
  | 0 => (tempCount, [])
  | S k =>
      let '(tempCount, x) := tempvar tempCount in
      let '(tempCount, xs) := tempvars k tempCount in
      (tempCount, x :: xs)
  end.




(** ** Further scenarios *)

(** A context that already carries a response. *)
Definition answered : Context :=
  mkContext 1 (post 0) [] [] ∅ 200%Z "ok" [].

(** The cellar after a request began. *)
Definition serving_cellar : World := (serve_begin cellar).2.

(** An error handler that answers 418. *)
Definition teapot : ErrorHandler := fun e =>
  _ ← RespondBytes 418%Z (Error e); mret tt.

(** A decode function that accepts the payload and notes it. *)
Definition accept : Handler := _ ← note "decoded"; mret None.

(** The closure of an action mounted on the cellar with [accept]. *)
Definition update_closure : HandleFn :=
  mkHandleFn 0 "update" (Some accept) (terminal idle) nil_slice 0.

(* ================================================================== *)
(** * Part II: properties                                              *)
(* ================================================================== *)

(** ** The monad *)

Lemma exec_bind_unfold {A B} (m : exec A) (f : A -> exec B) (ctx : Context) :
  (m ≫= f) ctx =
  match m ctx with
  | (ctx1, Done a) => f a ctx1
  | (ctx1, Panic v) => (ctx1, Panic v)
  end.
Proof. reflexivity. Qed.

Lemma exec_bind_done {A B} (m : exec A) (f : A -> exec B) ctx ctx1 a :
  m ctx = (ctx1, Done a) → (m ≫= f) ctx = f a ctx1.
Proof. intros H. rewrite exec_bind_unfold, H. reflexivity. Qed.

Lemma exec_bind_panic {A B} (m : exec A) (f : A -> exec B) ctx ctx1 v :
  m ctx = (ctx1, Panic v) → (m ≫= f) ctx = (ctx1, Panic v).
Proof. intros H. rewrite exec_bind_unfold, H. reflexivity. Qed.

(** ** Slices *)

Lemma growcap_ge old needed : needed ≤ growcap old needed.
Proof. unfold growcap. destruct (Nat.ltb_spec (old + old) needed); lia. Qed.

Lemma elems_length σ s : wf_slice σ s → length (elems σ s) = sl_len s.
Proof.
  unfold wf_slice, elems, slice_array.
  destruct (sl_ptr s) as [l|]; simpl.
  - intros (a & -> & Hlen). rewrite length_take. lia.
  - intros ->. reflexivity.
Qed.

Lemma mem_le_refl σ : mem_le σ σ.
Proof. intros l a H. exists a. auto. Qed.

Lemma mem_le_trans σ1 σ2 σ3 : mem_le σ1 σ2 → mem_le σ2 σ3 → mem_le σ1 σ3.
Proof.
  intros H12 H23 l a H.
  destruct (H12 l a H) as (a2 & H2 & Hl2).
  destruct (H23 l a2 H2) as (a3 & H3 & Hl3).
  exists a3. split; [done | lia].
Qed.

Lemma wf_slice_mono σ σ' s : mem_le σ σ' → wf_slice σ s → wf_slice σ' s.
Proof.
  unfold wf_slice. intros Hle. destruct (sl_ptr s) as [l|]; [|done].
  intros (a & Ha & Hlen).
  destruct (Hle l a Ha) as (a' & Ha' & Hl').
  exists a'. split; [done | lia].
Qed.

Lemma wf_slice_ptr_lt σ s l : wf_slice σ s → sl_ptr s = Some l → l < length σ.
Proof.
  unfold wf_slice. intros H Hl. rewrite Hl in H.
  destruct H as (a & Ha & _). by eapply lookup_lt_Some.
Qed.

Lemma elems_take σ s l a :
  sl_ptr s = Some l → σ !! l = Some a → elems σ s = take (sl_len s) (arr_data a).
Proof. unfold elems, slice_array. intros -> Ha. simpl. by rewrite Ha. Qed.

(** What [append] guarantees: the result holds the old elements followed
    by the new ones, in the array of the argument or in a fresh one; memory
    only grows; and a slice keeps its elements if it lives in another array
    or is no longer than the argument. *)
Lemma append_spec σ s xs σ' s' :
  wf_slice σ s → append σ s xs = (σ', s') →
  elems σ' s' = elems σ s ++ xs ∧
  wf_slice σ' s' ∧
  mem_le σ σ' ∧
  length σ ≤ length σ' ∧
  (sl_ptr s' = sl_ptr s ∨ sl_ptr s' = Some (length σ)) ∧
  ∀ t, wf_slice σ t → sl_ptr t ≠ sl_ptr s ∨ sl_len t ≤ sl_len s →
       elems σ' t = elems σ t.
Proof.
  intros Hwf Happ.
  pose proof (elems_length σ s Hwf) as Hlen.
  assert (Hgrown :
    (σ', s') = (σ ++ [mkArray (elems σ s ++ xs)
                        (growcap (slice_cap σ s) (sl_len s + length xs))],
                mkSlice (Some (length σ)) (sl_len s + length xs)) →
    elems σ' s' = elems σ s ++ xs ∧ wf_slice σ' s' ∧ mem_le σ σ' ∧
    length σ ≤ length σ' ∧
    (sl_ptr s' = sl_ptr s ∨ sl_ptr s' = Some (length σ)) ∧
    ∀ t, wf_slice σ t → sl_ptr t ≠ sl_ptr s ∨ sl_len t ≤ sl_len s →
         elems σ' t = elems σ t).
  { intros [= -> ->]. repeat split.
    - unfold elems at 1, slice_array. simpl.
      rewrite lookup_app_r, Nat.sub_diag by lia. simpl.
      apply take_ge. rewrite length_app. lia.
    - unfold wf_slice. simpl. eexists. split.
      + rewrite lookup_app_r, Nat.sub_diag by lia. reflexivity.
      + simpl. rewrite length_app. lia.
    - intros l a Ha. exists a. split; [|lia].
      rewrite lookup_app_l; [done | by eapply lookup_lt_Some].
    - rewrite length_app. lia.
    - by right.
    - intros t Ht _. unfold elems, slice_array.
      destruct (sl_ptr t) as [l|] eqn:Hl; [|done]. simpl.
      rewrite lookup_app_l; [done | by eapply wf_slice_ptr_lt]. }
  unfold append in Happ.
  destruct (sl_ptr s) as [l|] eqn:Hptr.
  - assert (Hsa : slice_array σ s = σ !! l).
    { unfold slice_array. by rewrite Hptr. }
    rewrite Hsa in Happ.
    pose proof Hwf as Hwf'. unfold wf_slice in Hwf'. rewrite Hptr in Hwf'.
    destruct Hwf' as (a & Ha & Hla). rewrite Ha in Happ.
    destruct (Nat.leb_spec (sl_len s + length xs) (arr_cap a)); [|by apply Hgrown].
    injection Happ as <- <-.
    assert (Hl : l < length σ) by (by eapply lookup_lt_Some).
    set (n := sl_len s + length xs).
    set (d := take (sl_len s) (arr_data a) ++ xs ++ drop n (arr_data a)).
    assert (Hdlen : length (arr_data a) ≤ length d ∧ n ≤ length d).
    { unfold d. rewrite !length_app, length_take, length_drop. lia. }
    assert (Hel : elems σ s = take (sl_len s) (arr_data a)) by (by eapply elems_take).
    repeat split.
    + unfold elems at 1, slice_array. simpl.
      rewrite list_lookup_insert_eq by done. simpl. fold n d.
      unfold d. rewrite app_assoc, take_app_le; last first.
      { rewrite length_app, length_take. lia. }
      rewrite Hel. apply take_ge. rewrite length_app, length_take. lia.
    + unfold wf_slice. simpl. eexists. split.
      * by apply list_lookup_insert_eq.
      * simpl. fold n d. lia.
    + intros l0 a0 Ha0. destruct (decide (l0 = l)) as [->|Hne].
      * rewrite Ha in Ha0. injection Ha0 as <-. eexists. split.
        -- by apply list_lookup_insert_eq.
        -- simpl. fold n d. lia.
      * exists a0. split; [|lia]. by rewrite list_lookup_insert_ne.
    + by rewrite length_insert.
    + by left.
    + intros t Ht Hcase. unfold elems, slice_array.
      destruct (sl_ptr t) as [lt|] eqn:Hlt; [|done]. simpl.
      destruct (decide (lt = l)) as [->|Hne].
      * destruct Hcase as [Hc|Hc]; [congruence|].
        rewrite list_lookup_insert_eq, Ha by done. simpl. fold n d.
        unfold d. rewrite take_app_le by (rewrite length_take; lia).
        rewrite take_take. f_equal. lia.
      * by rewrite list_lookup_insert_ne.
  - destruct (Nat.eqb_spec (sl_len s + length xs) 0) as [Hz|Hz]; [|by apply Hgrown].
    injection Happ as <- <-.
    assert (xs = []) as -> by (destruct xs; simpl in *; [done | lia]).
    rewrite app_nil_r. repeat split; auto using mem_le_refl.
Qed.

Lemma index_elems σ s i m : elems σ s !! i = Some m → index σ s i = Done m.
Proof.
  unfold elems, index. destruct (slice_array σ s) as [a|]; simpl; [|done].
  intros [Hm Hi]%lookup_take_Some.
  destruct (Nat.ltb_spec i (sl_len s)); [|lia]. by rewrite Hm.
Qed.

(** ** The composition loop *)

(** After [k] rounds the loop has wrapped the last [k] elements. *)
Lemma wrap_loop_rounds {T} (wrap : Middleware -> T -> T) σ chain (init : T) k :
  wf_slice σ chain → k ≤ sl_len chain →
  foldl (fun acc i =>
           x ← acc; m ← index σ chain (sl_len chain - i - 1); mret (wrap m x))
        (Done init) (seq 0 k)
  = Done (foldr wrap init (drop (sl_len chain - k) (elems σ chain))).
Proof.
  intros Hwf. pose proof (elems_length _ _ Hwf) as Hlen.
  induction k as [|k IH]; intros Hk.
  - simpl. rewrite Nat.sub_0_r, drop_ge by lia. reflexivity.
  - rewrite seq_S, foldl_app, IH by lia. simpl.
    destruct (lookup_lt_is_Some_2 (elems σ chain) (sl_len chain - k - 1)) as [m Hm];
      [lia|].
    rewrite (index_elems _ _ _ _ Hm). simpl.
    replace (sl_len chain - S k) with (sl_len chain - k - 1) by lia.
    rewrite (drop_S _ _ _ Hm).
    replace (S (sl_len chain - k - 1)) with (sl_len chain - k) by lia.
    reflexivity.
Qed.

(** The loop wraps the initial value with every element of the chain,
    the first element outermost. *)
Lemma wrap_loop_spec {T} (wrap : Middleware -> T -> T) σ chain (init : T) :
  wf_slice σ chain →
  wrap_loop wrap σ chain (sl_len chain) init = Done (foldr wrap init (elems σ chain)).
Proof.
  intros Hwf. unfold wrap_loop.
  rewrite (wrap_loop_rounds wrap σ chain init (sl_len chain) Hwf) by lia.
  by rewrite Nat.sub_diag.
Qed.

Lemma foldr_pointwise (ms : list Middleware) (init : ErrorHandlers -> Handler) eh :
  foldr (fun m x eh => m (x eh)) init ms eh = compose ms (init eh).
Proof. induction ms as [|m ms IH]; simpl; [done | by rewrite IH]. Qed.

(** ** Decorators *)

Lemma in_order_app (xs ys : list (exec unit)) ctx :
  in_order (xs ++ ys) ctx = (_ ← in_order xs; in_order ys) ctx.
Proof.
  revert ctx. induction xs as [|x xs IH]; intros ctx; simpl.
  - reflexivity.
  - rewrite !exec_bind_unfold. destruct (x ctx) as [c1 [[]|v]]; [|done].
    rewrite IH. reflexivity.
Qed.

(** Wrapping a handler with decorators runs their pre-logic first to
    last, then the handler, then their post-logic last to first. *)
Lemma compose_decorate (ps : list (exec unit * exec unit)) (t : Handler) ctx :
  compose (map (fun p => decorate p.1 p.2) ps) t ctx
  = (_ ← in_order (map fst ps); r ← t; _ ← in_order (rev (map snd ps)); mret r) ctx.
Proof.
  revert ctx. induction ps as [|[pre post] ps IH]; intros ctx; simpl.
  - exec_unfold. destruct (t ctx) as [c [r|v]]; reflexivity.
  - unfold decorate at 1. rewrite !exec_bind_unfold.
    destruct (pre ctx) as [c1 [[]|v]]; [|done].
    fold (compose (map (fun p => decorate p.1 p.2) ps) t).
    rewrite !exec_bind_unfold, IH, !exec_bind_unfold.
    destruct (in_order (map fst ps) c1) as [c2 [[]|v]]; [|done].
    rewrite !exec_bind_unfold.
    destruct (t c2) as [c3 [r|v]]; [|done].
    rewrite !exec_bind_unfold, in_order_app, !exec_bind_unfold.
    destruct (in_order (rev (map snd ps)) c3) as [c4 [[]|v]]; [|done].
    simpl. rewrite !exec_bind_unfold.
    destruct (post c4) as [c5 [[]|v]]; reflexivity.
Qed.

(** ** Well-formed worlds *)

Lemma wf_boot name : wf_world (boot name).
Proof. split; simpl; try done. Qed.

(** A world whose memory grew and whose slices are those of a well-formed
    world, or nil, is well formed. *)
Lemma wf_world_frame w w' :
  wf_world w → mem_le (arrays w) (arrays w') →
  app_middleware (app w') = app_middleware (app w) →
  (∀ c ctrl', ctrls w' !! c = Some ctrl' →
     (∃ ctrl, ctrls w !! c = Some ctrl ∧ ctrl_middleware ctrl' = ctrl_middleware ctrl)
     ∨ ctrl_middleware ctrl' = nil_slice) →
  wf_world w'.
Proof.
  intros [Ha Hc Hsa Hsc] Hle Happ Hctrls. split.
  - rewrite Happ. by eapply wf_slice_mono.
  - intros c ctrl' Hc'. destruct (Hctrls c ctrl' Hc') as [(ctrl & Hl & ->)| ->].
    + eapply wf_slice_mono; eauto.
    + done.
  - intros c ctrl' l Hc'. destruct (Hctrls c ctrl' Hc') as [(ctrl & Hl & ->)| ->].
    + rewrite Happ. eauto.
    + done.
  - intros c1 c2 ctrl1' ctrl2' l Hne H1 H2.
    destruct (Hctrls c1 ctrl1' H1) as [(ctrl1 & Hl1 & ->)| ->]; [|done].
    destruct (Hctrls c2 ctrl2' H2) as [(ctrl2 & Hl2 & ->)| ->]; [|done]. eauto.
Qed.

(** A slice other than [s] of a well-formed world keeps its elements
    when something is appended to [s]. *)
Lemma ctrl_slice_apart w c ctrl :
  wf_world w → ctrls w !! c = Some ctrl →
  sl_ptr (ctrl_middleware ctrl) ≠ sl_ptr (app_middleware (app w)) ∨
  sl_len (ctrl_middleware ctrl) ≤ sl_len (app_middleware (app w)).
Proof.
  intros Hwf Hc.
  destruct (sl_ptr (ctrl_middleware ctrl)) as [l|] eqn:Hl.
  - left. intros Heq. by eapply (wf_sep_app w Hwf c ctrl l).
  - right. pose proof (wf_ctrl w Hwf c ctrl Hc) as H.
    unfold wf_slice in H. rewrite Hl in H. lia.
Qed.

Lemma app_slice_apart w c ctrl :
  wf_world w → ctrls w !! c = Some ctrl →
  sl_ptr (app_middleware (app w)) ≠ sl_ptr (ctrl_middleware ctrl) ∨
  sl_len (app_middleware (app w)) ≤ sl_len (ctrl_middleware ctrl).
Proof.
  intros Hwf Hc.
  destruct (sl_ptr (app_middleware (app w))) as [l|] eqn:Hl.
  - left. intros Heq. by eapply (wf_sep_app w Hwf c ctrl l).
  - right. pose proof (wf_app w Hwf) as H.
    unfold wf_slice in H. rewrite Hl in H. lia.
Qed.

Lemma ctrl_ctrl_apart w c1 c2 ctrl1 ctrl2 :
  wf_world w → c1 ≠ c2 → ctrls w !! c1 = Some ctrl1 → ctrls w !! c2 = Some ctrl2 →
  sl_ptr (ctrl_middleware ctrl1) ≠ sl_ptr (ctrl_middleware ctrl2) ∨
  sl_len (ctrl_middleware ctrl1) ≤ sl_len (ctrl_middleware ctrl2).
Proof.
  intros Hwf Hne H1 H2.
  destruct (sl_ptr (ctrl_middleware ctrl1)) as [l|] eqn:Hl.
  - left. intros Heq. by eapply (wf_sep_ctrl w Hwf c1 c2 ctrl1 ctrl2 l).
  - right. pose proof (wf_ctrl w Hwf c1 ctrl1 H1) as H.
    unfold wf_slice in H. rewrite Hl in H. lia.
Qed.

(** [MiddlewareChain] on a well-formed world. *)
Lemma MiddlewareChain_spec w c ctrl :
  wf_world w → ctrls w !! c = Some ctrl →
  ∃ σ' s, MiddlewareChain c w = (set_arrays σ' w, Done s) ∧
    elems σ' s = app_chain w ++ ctrl_chain w c ∧
    wf_slice σ' s ∧ mem_le (arrays w) σ' ∧
    wf_world (set_arrays σ' w) ∧
    app_chain (set_arrays σ' w) = app_chain w ∧
    ∀ c', ctrl_chain (set_arrays σ' w) c' = ctrl_chain w c'.
Proof.
  intros Hwf Hc. unfold MiddlewareChain. rewrite Hc.
  destruct (append (arrays w) (app_middleware (app w))
              (elems (arrays w) (ctrl_middleware ctrl))) as [σ' s] eqn:Happ.
  destruct (append_spec _ _ _ _ _ (wf_app w Hwf) Happ)
    as (Hel & Hwfs & Hle & _ & _ & Hframe).
  exists σ', s. split_and!; try done.
  - rewrite Hel. unfold app_chain, ctrl_chain. by rewrite Hc.
  - eapply wf_world_frame; eauto.
  - unfold app_chain. simpl. apply Hframe; [by apply wf_app | right; lia].
  - intros c'. unfold ctrl_chain. simpl.
    destruct (ctrls w !! c') as [ctrl'|] eqn:Hc'; [|done].
    apply Hframe; [by eapply wf_ctrl | by eapply ctrl_slice_apart].
Qed.

(** [Application.Use] on a well-formed world. *)
Lemma Application_Use_spec m w :
  wf_world w →
  wf_world (Application_Use m w) ∧
  app_chain (Application_Use m w) = app_chain w ++ [m] ∧
  (∀ c, ctrl_chain (Application_Use m w) c = ctrl_chain w c) ∧
  mem_le (arrays w) (arrays (Application_Use m w)) ∧
  ctrls (Application_Use m w) = ctrls w.
Proof.
  intros Hwf. unfold Application_Use.
  destruct (append (arrays w) (app_middleware (app w)) [m]) as [σ' s] eqn:Happ.
  destruct (append_spec _ _ _ _ _ (wf_app w Hwf) Happ)
    as (Hel & Hwfs & Hle & Hlen & Hptr & Hframe).
  split_and!; try done.
  - split; simpl.
    + done.
    + intros c ctrl Hc. eapply wf_slice_mono; [done | by eapply wf_ctrl].
    + intros c ctrl l Hc Hl Heq.
      destruct Hptr as [Hp|Hp]; rewrite Hp in Heq.
      * by eapply (wf_sep_app w Hwf c ctrl l).
      * injection Heq as <-.
        pose proof (wf_slice_ptr_lt _ _ _ (wf_ctrl w Hwf c ctrl Hc) Hl). lia.
    + apply (wf_sep_ctrl w Hwf).
  - intros c. unfold ctrl_chain. simpl.
    destruct (ctrls w !! c) as [ctrl|] eqn:Hc; [|done].
    apply Hframe; [by eapply wf_ctrl | by eapply ctrl_slice_apart].
Qed.

(** [ApplicationController.Use] on a well-formed world. *)
Lemma ApplicationController_Use_spec c m w ctrl :
  wf_world w → ctrls w !! c = Some ctrl →
  ∃ w', ApplicationController_Use c m w = (w', Done tt) ∧
    wf_world w' ∧
    ctrl_chain w' c = ctrl_chain w c ++ [m] ∧
    (∀ c', c' ≠ c → ctrl_chain w' c' = ctrl_chain w c') ∧
    app_chain w' = app_chain w ∧
    mem_le (arrays w) (arrays w') ∧
    app w' = app w ∧
    (∀ c', is_Some (ctrls w' !! c') ↔ is_Some (ctrls w !! c')) ∧
    (∀ c' ctrl', ctrls w' !! c' = Some ctrl' →
       ∃ ctrl0, ctrls w !! c' = Some ctrl0 ∧
                ctrl_errorHandler ctrl' = ctrl_errorHandler ctrl0).
Proof.
  intros Hwf Hc. unfold ApplicationController_Use. rewrite Hc.
  destruct (append (arrays w) (ctrl_middleware ctrl) [m]) as [σ' s] eqn:Happ.
  destruct (append_spec _ _ _ _ _ (wf_ctrl w Hwf c ctrl Hc) Happ)
    as (Hel & Hwfs & Hle & Hlen & Hptr & Hframe).
  assert (Hlt : c < length (ctrls w)) by (by eapply lookup_lt_Some).
  eexists. split; [reflexivity|]. split_and!; simpl; try done.
  - split; simpl.
    + eapply wf_slice_mono; [done | by apply wf_app].
    + intros c' ctrl' Hc'. destruct (decide (c' = c)) as [->|Hne].
      * rewrite list_lookup_insert_eq in Hc' by done. by injection Hc' as <-.
      * rewrite list_lookup_insert_ne in Hc' by done.
        eapply wf_slice_mono; [done | by eapply wf_ctrl].
    + intros c' ctrl' l Hc' Hl Heq. destruct (decide (c' = c)) as [->|Hne].
      * rewrite list_lookup_insert_eq in Hc' by done. injection Hc' as <-.
        simpl in Hl. destruct Hptr as [Hp|Hp]; rewrite Hp in Hl.
        -- by eapply (wf_sep_app w Hwf c ctrl l).
        -- injection Hl as <-.
           pose proof (wf_slice_ptr_lt _ _ _ (wf_app w Hwf) Heq). lia.
      * rewrite list_lookup_insert_ne in Hc' by done.
        by eapply (wf_sep_app w Hwf c' ctrl' l).
    + intros c1 c2 ctrl1 ctrl2 l Hne H1 H2 Hl1 Hl2.
      destruct (decide (c1 = c)) as [->|Hne1];
        destruct (decide (c2 = c)) as [->|Hne2]; try done.
      * rewrite list_lookup_insert_eq in H1 by done. injection H1 as <-.
        rewrite list_lookup_insert_ne in H2 by done. simpl in Hl1.
        destruct Hptr as [Hp|Hp]; rewrite Hp in Hl1.
        -- by eapply (wf_sep_ctrl w Hwf c c2 ctrl ctrl2 l).
        -- injection Hl1 as <-.
           pose proof (wf_slice_ptr_lt _ _ _ (wf_ctrl w Hwf c2 ctrl2 H2) Hl2). lia.
      * rewrite list_lookup_insert_eq in H2 by done. injection H2 as <-.
        rewrite list_lookup_insert_ne in H1 by done. simpl in Hl2.
        destruct Hptr as [Hp|Hp]; rewrite Hp in Hl2.
        -- by eapply (wf_sep_ctrl w Hwf c1 c ctrl1 ctrl l).
        -- injection Hl2 as <-.
           pose proof (wf_slice_ptr_lt _ _ _ (wf_ctrl w Hwf c1 ctrl1 H1) Hl1). lia.
      * rewrite list_lookup_insert_ne in H1 by done.
        rewrite list_lookup_insert_ne in H2 by done.
        by eapply (wf_sep_ctrl w Hwf c1 c2 ctrl1 ctrl2 l).
  - unfold ctrl_chain. simpl. rewrite list_lookup_insert_eq by done. simpl.
    by rewrite Hc.
  - intros c' Hne. unfold ctrl_chain. simpl.
    rewrite list_lookup_insert_ne by done.
    destruct (ctrls w !! c') as [ctrl'|] eqn:Hc'; [|done].
    apply Hframe; [by eapply wf_ctrl | by eapply ctrl_ctrl_apart].
  - unfold app_chain. simpl.
    apply Hframe; [by apply wf_app | by eapply app_slice_apart].
  - intros c'. destruct (decide (c' = c)) as [->|Hne].
    + rewrite list_lookup_insert_eq by done. rewrite Hc. split; eauto.
    + by rewrite list_lookup_insert_ne.
  - intros c' ctrl' Hc'. destruct (decide (c' = c)) as [->|Hne].
    + rewrite list_lookup_insert_eq in Hc' by done. injection Hc' as <-. eauto.
    + rewrite list_lookup_insert_ne in Hc' by done. eauto.
Qed.

Lemma grows_refl w : grows w w.
Proof. split; [apply mem_le_refl | auto]. Qed.

Lemma grows_trans w1 w2 w3 : grows w1 w2 → grows w2 w3 → grows w1 w3.
Proof. intros [H1 H1'] [H2 H2']. split; [by eapply mem_le_trans | auto]. Qed.

(** Calls that leave the memory, the slices and the controllers alone. *)
Lemma frame_step w w' :
  wf_world w → arrays w' = arrays w →
  app_middleware (app w') = app_middleware (app w) → ctrls w' = ctrls w →
  wf_world w' ∧ grows w w'.
Proof.
  intros Hwf Ha Hm Hc. split.
  - eapply wf_world_frame; eauto.
    + rewrite Ha. apply mem_le_refl.
    + rewrite Hc. eauto.
  - split; [rewrite Ha; apply mem_le_refl | by rewrite Hc].
Qed.

Lemma HandleFunc_world c name h d w :
  (HandleFunc c name h d w).1 = (MiddlewareChain c w).1.
Proof.
  unfold HandleFunc. destruct (MiddlewareChain c w) as [w1 [chain|v]]; reflexivity.
Qed.

Lemma MiddlewareChain_wf c w :
  wf_world w → wf_world (MiddlewareChain c w).1 ∧ grows w (MiddlewareChain c w).1.
Proof.
  intros Hwf. destruct (ctrls w !! c) as [ctrl|] eqn:Hc.
  - destruct (MiddlewareChain_spec w c ctrl Hwf Hc)
      as (σ' & s & -> & _ & _ & Hle & Hwf' & _). simpl.
    split; [done|]. split; [done | auto].
  - unfold MiddlewareChain. rewrite Hc. simpl. split; [done | apply grows_refl].
Qed.

Lemma NewController_wf resName w :
  wf_world w →
  wf_world (NewController resName w).1 ∧ grows w (NewController resName w).1.
Proof.
  intros Hwf. unfold NewController. simpl. split.
  - eapply wf_world_frame; eauto; simpl.
    + apply mem_le_refl.
    + intros c ctrl' [Hc|[_ Hs]]%lookup_app_Some; [eauto|].
      apply list_lookup_singleton_Some in Hs as [_ <-]. by right.
  - split; simpl; [apply mem_le_refl|].
    intros c [ctrl Hc]. exists ctrl. by apply lookup_app_l_Some.
Qed.

Lemma ApplicationController_Use_wf c m w :
  wf_world w →
  wf_world (ApplicationController_Use c m w).1 ∧
  grows w (ApplicationController_Use c m w).1.
Proof.
  intros Hwf. destruct (ctrls w !! c) as [ctrl|] eqn:Hc.
  - destruct (ApplicationController_Use_spec c m w ctrl Hwf Hc)
      as (w' & -> & Hwf' & _ & _ & _ & Hle & _ & Hsome & _). simpl.
    split; [done|]. split; [done|]. intros c'. by rewrite Hsome.
  - unfold ApplicationController_Use. rewrite Hc. simpl.
    split; [done | apply grows_refl].
Qed.

Lemma ApplicationController_SetErrorHandler_wf c handler w :
  wf_world w →
  wf_world (ApplicationController_SetErrorHandler c handler w).1 ∧
  grows w (ApplicationController_SetErrorHandler c handler w).1.
Proof.
  intros Hwf. unfold ApplicationController_SetErrorHandler.
  destruct (ctrls w !! c) as [ctrl|] eqn:Hc; simpl; [|split; [done | apply grows_refl]].
  assert (Hlt : c < length (ctrls w)) by (by eapply lookup_lt_Some).
  split.
  - eapply wf_world_frame; eauto; simpl; [apply mem_le_refl|].
    intros c' ctrl' Hc'. left. destruct (decide (c' = c)) as [->|Hne].
    + rewrite list_lookup_insert_eq in Hc' by done. injection Hc' as <-. eauto.
    + rewrite list_lookup_insert_ne in Hc' by done. eauto.
  - split; simpl; [apply mem_le_refl|]. intros c'.
    destruct (decide (c' = c)) as [->|Hne].
    + rewrite list_lookup_insert_eq by done. eauto.
    + by rewrite list_lookup_insert_ne.
Qed.

(** The world after [GetVersion] had to make a version. *)
Lemma GetVersion_hit name w m l :
  app_versions (app w) = Some m → m !! name = Some l →
  GetVersion name w = (w, Done l).
Proof.
  intros Hm Hl. unfold GetVersion. rewrite Hm. simpl. rewrite Hm. simpl.
  by rewrite Hl.
Qed.

Lemma GetVersion_miss name w :
  app_versions (app w) ≫= (.!! name) = None →
  GetVersion name w =
  (set_app (mkApplication (app_Logger (app w)) (app_name (app w))
              (app_errorHandler (app w)) (app_middleware (app w))
              (app_version (app w))
              (Some (<[name := length (vheap w)]> (default ∅ (app_versions (app w))))))
     (set_vheap (vheap w ++ [mkVersion name NewMux ∅ ∅ []]) w),
   Done (length (vheap w))).
Proof.
  intros Hnone. unfold GetVersion, newVersion.
  destruct (app_versions (app w)) as [m|] eqn:Hm; simpl in *.
  - rewrite Hm. simpl. rewrite Hnone. simpl.
    by rewrite lookup_insert_eq.
  - by rewrite lookup_empty, lookup_insert_eq.
Qed.

Lemma GetVersion_frame name w :
  arrays (GetVersion name w).1 = arrays w ∧
  app_middleware (app (GetVersion name w).1) = app_middleware (app w) ∧
  ctrls (GetVersion name w).1 = ctrls w ∧
  scopes (GetVersion name w).1 = scopes w ∧
  app_errorHandler (app (GetVersion name w).1) = app_errorHandler (app w) ∧
  app_version (app (GetVersion name w).1) = app_version (app w) ∧
  app_name (app (GetVersion name w).1) = app_name (app w).
Proof.
  destruct (app_versions (app w) ≫= (.!! name)) as [l|] eqn:Hl.
  - destruct (app_versions (app w)) as [m|] eqn:Hm; [|done]. simpl in Hl.
    by rewrite (GetVersion_hit name w m l Hm Hl).
  - by rewrite (GetVersion_miss name w Hl).
Qed.

Lemma ServeMux_Handle_frame method path handle w :
  arrays (ServeMux_Handle method path handle w).1 = arrays w ∧
  app (ServeMux_Handle method path handle w).1 = app w ∧
  ctrls (ServeMux_Handle method path handle w).1 = ctrls w ∧
  scopes (ServeMux_Handle method path handle w).1 = scopes w.
Proof.
  unfold ServeMux_Handle.
  destruct (ServeMux_of w), (app_version (app w)); simpl; done.
Qed.

Lemma ServeFiles_wf os path filename w :
  wf_world w →
  wf_world (ServeFiles os path filename w).1 ∧
  grows w (ServeFiles os path filename w).1.
Proof.
  intros Hwf. unfold ServeFiles.
  destruct (Contains path ":"); [simpl; split; [done | apply grows_refl]|].
  destruct (os_Stat os filename); [simpl; split; [done | apply grows_refl]|].
  set (w1 := Info _ _ w).
  destruct (frame_step w w1 Hwf) as [Hwf1 Hg1]; try done.
  destruct (NewController "FileServer" w1) as [w2 ctrl] eqn:Hnc.
  destruct (NewController_wf "FileServer" w1 Hwf1) as [Hwf2 Hg2].
  rewrite Hnc in Hwf2, Hg2. simpl in Hwf2, Hg2.
  set (h := serveFile _ _ _).
  pose proof (HandleFunc_world ctrl "Serve" h None w2) as Hw.
  destruct (MiddlewareChain_wf ctrl w2 Hwf2) as [Hwf3 Hg3]. rewrite <- Hw in Hwf3, Hg3.
  destruct (HandleFunc ctrl "Serve" h None w2) as [w3 [handle|v]];
    simpl in Hwf3, Hg3; simpl.
  - destruct (ServeMux_Handle_frame "GET" path handle w3) as (Ha & Happ & Hc & _).
    destruct (frame_step w3 _ Hwf3 Ha (f_equal _ Happ) Hc) as [Hwf4 Hg4].
    destruct (ServeMux_Handle "GET" path handle w3) as [w4 [[]|v]]; simpl in *;
      (split; [done | eauto using grows_trans]).
  - split; [done | eauto using grows_trans].
Qed.

(** Every call keeps the world well formed, and only lets it grow. *)
Lemma step_wf w k : wf_world w → wf_world (step w k) ∧ grows w (step w k).
Proof.
  intros Hwf. destruct k; simpl.
  - destruct (Application_Use_spec m w Hwf) as (Hwf' & _ & _ & Hle & Hc).
    split; [done|]. split; [done | by rewrite Hc].
  - by apply frame_step.
  - destruct (GetVersion_frame name w) as (Ha & Hm & Hc & _). by apply frame_step.
  - by apply NewController_wf.
  - by apply ApplicationController_Use_wf.
  - by apply ApplicationController_SetErrorHandler_wf.
  - by apply MiddlewareChain_wf.
  - rewrite HandleFunc_world. by apply MiddlewareChain_wf.
  - by apply ServeFiles_wf.
  - by apply frame_step.
  - by apply frame_step.
  - by apply frame_step.
  - by apply frame_step.
Qed.

Lemma run_calls_wf ks w :
  wf_world w → wf_world (run_calls ks w) ∧ grows w (run_calls ks w).
Proof.
  revert w. induction ks as [|k ks IH]; intros w Hwf; simpl.
  - split; [done | apply grows_refl].
  - destruct (step_wf w k Hwf) as [Hwf1 Hg1].
    destruct (IH _ Hwf1) as [Hwf2 Hg2].
    split; [done | by eapply grows_trans].
Qed.

(** ** The chains under the API *)

Lemma same_chains_refl w : same_chains w w.
Proof. by split. Qed.

Lemma same_chains_trans w1 w2 w3 :
  grows w1 w2 → same_chains w1 w2 → same_chains w2 w3 → same_chains w1 w3.
Proof.
  intros [_ Hg] [Ha1 Hc1] [Ha2 Hc2]. split; [congruence|].
  intros c Hc. rewrite Hc2, Hc1; auto.
Qed.

Lemma same_chains_frame w w' :
  arrays w' = arrays w → app_middleware (app w') = app_middleware (app w) →
  ctrls w' = ctrls w → same_chains w w'.
Proof.
  intros Ha Hm Hc. split.
  - unfold app_chain. by rewrite Ha, Hm.
  - intros c _. unfold ctrl_chain. by rewrite Ha, Hc.
Qed.

Lemma MiddlewareChain_same_chains c w :
  wf_world w → same_chains w (MiddlewareChain c w).1.
Proof.
  intros Hwf. destruct (ctrls w !! c) as [ctrl|] eqn:Hc.
  - destruct (MiddlewareChain_spec w c ctrl Hwf Hc)
      as (σ' & s & -> & _ & _ & _ & _ & Ha & Hcs). simpl. split; auto.
  - unfold MiddlewareChain. rewrite Hc. apply same_chains_refl.
Qed.

Lemma NewController_same_chains resName w :
  same_chains w (NewController resName w).1.
Proof.
  unfold NewController. simpl. split; [done|].
  intros c [ctrl Hc]. unfold ctrl_chain. simpl.
  by rewrite (lookup_app_l_Some _ _ _ _ Hc), Hc.
Qed.

Lemma ApplicationController_SetErrorHandler_same_chains c handler w :
  same_chains w (ApplicationController_SetErrorHandler c handler w).1.
Proof.
  unfold ApplicationController_SetErrorHandler.
  destruct (ctrls w !! c) as [ctrl|] eqn:Hc; simpl; [|apply same_chains_refl].
  assert (Hlt : c < length (ctrls w)) by (by eapply lookup_lt_Some).
  split; [done|]. intros c' _. unfold ctrl_chain. simpl.
  destruct (decide (c' = c)) as [->|Hne].
  - rewrite list_lookup_insert_eq by done. by rewrite Hc.
  - by rewrite list_lookup_insert_ne.
Qed.

Lemma ServeFiles_same_chains os path filename w :
  wf_world w → same_chains w (ServeFiles os path filename w).1.
Proof.
  intros Hwf. unfold ServeFiles.
  destruct (Contains path ":"); [apply same_chains_refl|].
  destruct (os_Stat os filename); [apply same_chains_refl|].
  set (w1 := Info _ _ w).
  destruct (frame_step w w1 Hwf) as [Hwf1 Hg1]; try done.
  assert (Hs1 : same_chains w w1) by (by apply same_chains_frame).
  destruct (NewController "FileServer" w1) as [w2 ctrl] eqn:Hnc.
  destruct (NewController_wf "FileServer" w1 Hwf1) as [Hwf2 Hg2].
  pose proof (NewController_same_chains "FileServer" w1) as Hs2.
  rewrite Hnc in Hwf2, Hg2, Hs2. simpl in Hwf2, Hg2, Hs2.
  set (h := serveFile _ _ _).
  pose proof (HandleFunc_world ctrl "Serve" h None w2) as Hw.
  destruct (MiddlewareChain_wf ctrl w2 Hwf2) as [Hwf3 Hg3].
  pose proof (MiddlewareChain_same_chains ctrl w2 Hwf2) as Hs3.
  rewrite <- Hw in Hwf3, Hg3, Hs3.
  assert (H13 : same_chains w (HandleFunc ctrl "Serve" h None w2).1).
  { eapply same_chains_trans; [| |exact Hs3].
    - exact (grows_trans _ _ _ Hg1 Hg2).
    - exact (same_chains_trans _ _ _ Hg1 Hs1 Hs2). }
  assert (G13 : grows w (HandleFunc ctrl "Serve" h None w2).1).
  { eapply grows_trans; [|exact Hg3]. exact (grows_trans _ _ _ Hg1 Hg2). }
  destruct (HandleFunc ctrl "Serve" h None w2) as [w3 [handle|v]]; simpl in *; [|done].
  destruct (ServeMux_Handle_frame "GET" path handle w3) as (Ha & Happ & Hc & _).
  pose proof (same_chains_frame w3 _ Ha (f_equal _ Happ) Hc) as Hs4.
  destruct (ServeMux_Handle "GET" path handle w3) as [w4 [[]|v]]; simpl in *;
    by eapply same_chains_trans.
Qed.

(** What one call does to the chains: [Use] appends to the chain it is
    called on, and nothing else changes a chain. *)
Lemma chain_step w k c :
  wf_world w → is_Some (ctrls w !! c) →
  app_chain (step w k) = app_chain w ++ registers_app k ∧
  ctrl_chain (step w k) c = ctrl_chain w c ++ registers_ctrl c k.
Proof.
  intros Hwf Hc.
  assert (Hsame : ∀ w', same_chains w w' →
            app_chain w' = app_chain w ++ [] ∧ ctrl_chain w' c = ctrl_chain w c ++ []).
  { intros w' [Ha Hcs]. rewrite !app_nil_r. auto. }
  destruct k; simpl; try (apply Hsame).
  - destruct (Application_Use_spec m w Hwf) as (_ & Ha & Hcs & _).
    rewrite app_nil_r. auto.
  - by apply same_chains_frame.
  - destruct (GetVersion_frame name w) as (Ha & Hm & Hcs & _).
    by apply same_chains_frame.
  - apply NewController_same_chains.
  - destruct (ctrls w !! c0) as [ctrl0|] eqn:Hc0.
    + destruct (ApplicationController_Use_spec c0 m w ctrl0 Hwf Hc0)
        as (w' & -> & _ & Hcc & Hother & Happ & _). simpl.
      rewrite app_nil_r. split; [done|].
      destruct (decide (c0 = c)) as [->|Hne]; [done|].
      rewrite app_nil_r. apply Hother. congruence.
    + unfold ApplicationController_Use. rewrite Hc0. simpl.
      destruct (decide (c0 = c)) as [->|Hne].
      * rewrite Hc0 in Hc. by destruct Hc.
      * by rewrite !app_nil_r.
  - apply ApplicationController_SetErrorHandler_same_chains.
  - by apply MiddlewareChain_same_chains.
  - rewrite HandleFunc_world. by apply MiddlewareChain_same_chains.
  - by apply ServeFiles_same_chains.
  - by apply same_chains_frame.
  - by apply same_chains_frame.
  - by apply same_chains_frame.
  - by apply same_chains_frame.
Qed.

(** C6: in every world built through the API, [MiddlewareChain] returns
    the application-wide middleware followed by the controller's own, each
    in the order of the [Use] calls: the application's chain starts empty,
    a controller's chain starts empty, [Use] appends at the end of the
    chain it is called on, and no other call changes a chain. *)
Theorem MiddlewareChain_app_then_controller name ks c ctrl :
  ctrls (run_calls ks (boot name)) !! c = Some ctrl →
  (∃ w' s, MiddlewareChain c (run_calls ks (boot name)) = (w', Done s) ∧
           elems (arrays w') s
           = app_chain (run_calls ks (boot name)) ++
             ctrl_chain (run_calls ks (boot name)) c) ∧
  (∀ k, app_chain (step (run_calls ks (boot name)) k)
        = app_chain (run_calls ks (boot name)) ++ registers_app k ∧
        ctrl_chain (step (run_calls ks (boot name)) k) c
        = ctrl_chain (run_calls ks (boot name)) c ++ registers_ctrl c k) ∧
  app_chain (boot name) = [] ∧
  (∀ resName,
     ctrl_chain (NewController resName (run_calls ks (boot name))).1
                (NewController resName (run_calls ks (boot name))).2 = []).
Proof.
  intros Hc.
  destruct (run_calls_wf ks (boot name) (wf_boot name)) as [Hwf _].
  split_and!.
  - destruct (MiddlewareChain_spec _ c ctrl Hwf Hc) as (σ' & s & Heq & Hel & _).
    eauto.
  - intros k. apply chain_step; eauto.
  - reflexivity.
  - intros resName. unfold NewController, ctrl_chain. simpl.
    rewrite lookup_app_r, Nat.sub_diag by lia. reflexivity.
Qed.

(** ** Mounting an action *)

(** [HandleFunc] on a well-formed world: the closure it returns. *)
Lemma HandleFunc_spec c name h d w ctrl :
  wf_world w → ctrls w !! c = Some ctrl →
  ∃ σ' s,
    HandleFunc c name h d w
    = (set_arrays σ' w,
       Done (mkHandleFn c name d
               (foldr (fun m x eh => m (x eh)) (terminal h)
                      (app_chain w ++ ctrl_chain w c))
               s (sl_len s))) ∧
    elems σ' s = app_chain w ++ ctrl_chain w c ∧
    wf_slice σ' s ∧ mem_le (arrays w) σ'.
Proof.
  intros Hwf Hc.
  destruct (MiddlewareChain_spec w c ctrl Hwf Hc)
    as (σ' & s & Hmc & Hel & Hwfs & Hle & _).
  exists σ', s. unfold HandleFunc. rewrite Hmc. simpl.
  rewrite (wrap_loop_spec _ σ' s (terminal h) Hwfs), Hel. done.
Qed.

(** C1: the handler composed by [HandleFunc] is the chain folded from its
    last element to its first around the terminal handler, the first
    middleware outermost; with middleware that run logic before and after
    the handler they wrap, invoking it runs the pre-logic in registration
    order, then the terminal handler, then the post-logic in reverse
    order. *)
Theorem HandleFunc_wraps_in_registration_order name0 ks c ctrl name h d :
  ctrls (run_calls ks (boot name0)) !! c = Some ctrl →
  ∃ w' hf,
    HandleFunc c name h d (run_calls ks (boot name0)) = (w', Done hf) ∧
    (∀ eh, hf_middleware hf eh
           = foldr (fun m x => m x) (terminal h eh)
               (app_chain (run_calls ks (boot name0)) ++
                ctrl_chain (run_calls ks (boot name0)) c)) ∧
    (∀ ps eh ctx,
       app_chain (run_calls ks (boot name0)) ++
       ctrl_chain (run_calls ks (boot name0)) c
       = map (fun p => decorate p.1 p.2) ps →
       hf_middleware hf eh ctx
       = (_ ← in_order (map fst ps);
          r ← terminal h eh;
          _ ← in_order (rev (map snd ps));
          mret r) ctx).
Proof.
  intros Hc.
  destruct (run_calls_wf ks (boot name0) (wf_boot name0)) as [Hwf _].
  destruct (HandleFunc_spec c name h d _ ctrl Hwf Hc) as (σ' & s & Heq & _).
  eexists _, _. split; [exact Heq|]. simpl. split.
  - intros eh. apply foldr_pointwise.
  - intros ps eh ctx Hps. rewrite foldr_pointwise, Hps. apply compose_decorate.
Qed.

(** ** The built-in error handlers *)

Lemma RespondBytes_unwritten code body ctx :
  ResponseWritten ctx = false →
  RespondBytes code body ctx
  = (mkContext (ctx_Context ctx) (ctx_Request ctx) (ctx_Params ctx) (ctx_Logger ctx)
       (ctx_Header ctx) code body (ctx_Log ctx), Done None).
Proof. intros H. unfold RespondBytes. by rewrite H. Qed.

Lemma RespondBytes_written code body ctx :
  ResponseWritten ctx = true →
  RespondBytes code body ctx
  = (ctx, Done (Some (errorString "response already written"))).
Proof. intros H. unfold RespondBytes. by rewrite H. Qed.

Lemma DefaultErrorHandler_unwritten e ctx :
  ResponseWritten ctx = false →
  DefaultErrorHandler e ctx
  = (mkContext (ctx_Context ctx) (ctx_Request ctx) (ctx_Params ctx) (ctx_Logger ctx)
       (if isBadRequestError e
        then <["Content-Type" := "application/json"]> (ctx_Header ctx)
        else ctx_Header ctx)
       (if isBadRequestError e then 400%Z else 500%Z) (Error e) (ctx_Log ctx),
     Done tt).
Proof.
  intros Hw. unfold DefaultErrorHandler.
  destruct (isBadRequestError e); repeat (rewrite exec_bind_unfold; simpl);
    rewrite !RespondBytes_unwritten by exact Hw; done.
Qed.

Lemma TerseErrorHandler_unwritten e ctx :
  ResponseWritten ctx = false →
  TerseErrorHandler e ctx
  = (mkContext (ctx_Context ctx) (ctx_Request ctx) (ctx_Params ctx) (ctx_Logger ctx)
       (if isBadRequestError e
        then <["Content-Type" := "application/json"]> (ctx_Header ctx)
        else ctx_Header ctx)
       (if isBadRequestError e then 400%Z else 500%Z)
       (if isBadRequestError e then Error e else "") (ctx_Log ctx),
     Done tt).
Proof.
  intros Hw. unfold TerseErrorHandler.
  destruct (isBadRequestError e); repeat (rewrite exec_bind_unfold; simpl);
    rewrite !RespondBytes_unwritten by exact Hw; done.
Qed.

(** C5: on a context without a response, the verbose handler answers a
    bad-request error with status 400, the JSON content type and the error
    message as body, and any other error with status 500 and the error
    message as body; the terse handler answers a bad-request error in the
    same way and any other error with status 500 and an empty body.  On a
    context that already carries a response, neither handler answers: the
    status and the body stay as they were and the handler returns
    normally. *)
Theorem error_handlers_classify ctx e :
  (ResponseWritten ctx = false →
   (isBadRequestError e = true →
      DefaultErrorHandler e ctx
      = (mkContext (ctx_Context ctx) (ctx_Request ctx) (ctx_Params ctx) (ctx_Logger ctx)
           (<["Content-Type" := "application/json"]> (ctx_Header ctx))
           400%Z (Error e) (ctx_Log ctx), Done tt) ∧
      TerseErrorHandler e ctx = DefaultErrorHandler e ctx) ∧
   (isBadRequestError e = false →
      DefaultErrorHandler e ctx
      = (mkContext (ctx_Context ctx) (ctx_Request ctx) (ctx_Params ctx) (ctx_Logger ctx)
           (ctx_Header ctx) 500%Z (Error e) (ctx_Log ctx), Done tt) ∧
      TerseErrorHandler e ctx
      = (mkContext (ctx_Context ctx) (ctx_Request ctx) (ctx_Params ctx) (ctx_Logger ctx)
           (ctx_Header ctx) 500%Z "" (ctx_Log ctx), Done tt))) ∧
  (ResponseWritten ctx = true →
   (DefaultErrorHandler e ctx).2 = Done tt ∧
   ResponseStatus (DefaultErrorHandler e ctx).1 = ResponseStatus ctx ∧
   ctx_Body (DefaultErrorHandler e ctx).1 = ctx_Body ctx ∧
   (TerseErrorHandler e ctx).2 = Done tt ∧
   ResponseStatus (TerseErrorHandler e ctx).1 = ResponseStatus ctx ∧
   ctx_Body (TerseErrorHandler e ctx).1 = ctx_Body ctx).
Proof.
  split; intros Hw.
  - rewrite (DefaultErrorHandler_unwritten e ctx Hw),
      (TerseErrorHandler_unwritten e ctx Hw).
    split; intros ->; done.
  - unfold DefaultErrorHandler, TerseErrorHandler.
    destruct (isBadRequestError e);
      repeat (rewrite exec_bind_unfold; simpl);
      rewrite !RespondBytes_written by exact Hw; simpl; done.
Qed.

(** ** Routing of errors *)

Lemma HandleError_effective eh err ctx :
  HandleError eh err ctx
  = match effective_handler eh with
    | Some handler => handler err ctx
    | None => (ctx, Done tt)
    end.
Proof.
  unfold HandleError, effective_handler.
  destruct (eh_ctrl eh); [done|]. by destruct (eh_app eh).
Qed.

(** C4: when no response is written yet and the action returns an error,
    the terminal handler hands the error to the controller's error handler
    if it is set, else to the application's, and then returns nil; when
    neither is set it writes nothing and leaves the context as the action
    left it. *)
Theorem terminal_routes_action_error w ctrl h ctx ctx' err :
  ResponseWritten ctx = false →
  h ctx = (ctx', Done (Some err)) →
  terminal h (handlers_of w ctrl) ctx
  = match ctrl_errorHandler ctrl with
    | Some handler => (_ ← handler err; mret None) ctx'
    | None =>
        match app_errorHandler (app w) with
        | Some handler => (_ ← handler err; mret None) ctx'
        | None => (ctx', Done None)
        end
    end.
Proof.
  intros Hw Hh. unfold terminal.
  rewrite exec_bind_unfold. unfold gets at 1. simpl. rewrite Hw. simpl.
  rewrite !exec_bind_unfold, Hh. unfold HandleError, handlers_of. simpl.
  destruct (ctrl_errorHandler ctrl) as [handler|].
  - rewrite exec_bind_unfold. by destruct (handler err ctx') as [c [[]|v]].
  - destruct (app_errorHandler (app w)) as [handler|]; [|done].
    rewrite exec_bind_unfold. by destruct (handler err ctx') as [c [[]|v]].
Qed.

(** ** Serving a request *)

(** The response of [serve] is that of [dispatch] on a fresh context in
    the scope derived for the request. *)
Lemma serve_result hf r params w ctrl :
  ctrls w !! hf_ctrl hf = Some ctrl →
  (serve hf r params w).2
  = dispatch hf (arrays w) ctrl (handlers_of w ctrl)
      (NewContext (length (scopes w)) r params).
Proof. intros Hc. unfold serve, serve_begin. simpl. by rewrite Hc. Qed.

#[local] Arguments serve : simpl never.
#[local] Arguments dispatch : simpl never.

Lemma dispatch_after_chain hf σ ctrl eh ctx ctx1 r :
  invoke_chain hf σ ctrl eh ctx = (ctx1, Done r) →
  dispatch hf σ ctrl eh ctx = respond_unhandled eh ctx1.
Proof. intros H. unfold dispatch. by rewrite exec_bind_unfold, H. Qed.

Lemma respond_unhandled_unset eh ctx :
  ResponseStatus ctx = 0%Z →
  respond_unhandled eh ctx = HandleError eh (Errorf "unhandled request") ctx.
Proof.
  intros H. unfold respond_unhandled. rewrite exec_bind_unfold. unfold gets.
  by rewrite H.
Qed.

Lemma respond_unhandled_set eh ctx :
  ResponseStatus ctx ≠ 0%Z → respond_unhandled eh ctx = (ctx, Done tt).
Proof.
  intros H. unfold respond_unhandled. rewrite exec_bind_unfold. unfold gets.
  by destruct (Z.eqb_spec (ResponseStatus ctx) 0).
Qed.

Lemma unwritten_of_status ctx : ResponseStatus ctx = 0%Z → ResponseWritten ctx = false.
Proof. intros H. unfold ResponseWritten. by rewrite H. Qed.

(** C3, as amended: once the chain has returned, a context whose status
    is still unset is handed, with the error "unhandled request", to the
    controller's error handler if set, else to the application's; with
    either built-in handler this writes the one response of the request,
    with status 500; when neither handler is set nothing is written; and a
    context that already carries a response is left alone. *)
Theorem unhandled_request_backstop w ctrl hf σ ctx ctx1 r :
  invoke_chain hf σ ctrl (handlers_of w ctrl) ctx = (ctx1, Done r) →
  (ResponseStatus ctx1 = 0%Z →
     dispatch hf σ ctrl (handlers_of w ctrl) ctx
     = match ctrl_errorHandler ctrl with
       | Some handler => handler (Errorf "unhandled request") ctx1
       | None =>
           match app_errorHandler (app w) with
           | Some handler => handler (Errorf "unhandled request") ctx1
           | None => (ctx1, Done tt)
           end
       end ∧
     (effective_handler (handlers_of w ctrl) = Some DefaultErrorHandler →
        dispatch hf σ ctrl (handlers_of w ctrl) ctx
        = (mkContext (ctx_Context ctx1) (ctx_Request ctx1) (ctx_Params ctx1)
             (ctx_Logger ctx1) (ctx_Header ctx1) 500%Z "unhandled request"
             (ctx_Log ctx1), Done tt)) ∧
     (effective_handler (handlers_of w ctrl) = Some TerseErrorHandler →
        dispatch hf σ ctrl (handlers_of w ctrl) ctx
        = (mkContext (ctx_Context ctx1) (ctx_Request ctx1) (ctx_Params ctx1)
             (ctx_Logger ctx1) (ctx_Header ctx1) 500%Z "" (ctx_Log ctx1), Done tt)) ∧
     (effective_handler (handlers_of w ctrl) = None →
        dispatch hf σ ctrl (handlers_of w ctrl) ctx = (ctx1, Done tt))) ∧
  (ResponseStatus ctx1 ≠ 0%Z →
     dispatch hf σ ctrl (handlers_of w ctrl) ctx = (ctx1, Done tt)).
Proof.
  intros Hchain. rewrite (dispatch_after_chain _ _ _ _ _ _ _ Hchain). split.
  - intros H0. rewrite (respond_unhandled_unset _ _ H0).
    pose proof (unwritten_of_status _ H0) as Hw.
    split_and!.
    + unfold HandleError, handlers_of. simpl.
      destruct (ctrl_errorHandler ctrl); [done|].
      by destruct (app_errorHandler (app w)).
    + intros He. rewrite HandleError_effective, He.
      by rewrite (DefaultErrorHandler_unwritten _ ctx1 Hw).
    + intros He. rewrite HandleError_effective, He.
      by rewrite (TerseErrorHandler_unwritten _ ctx1 Hw).
    + intros He. by rewrite HandleError_effective, He.
  - apply respond_unhandled_set.
Qed.

(** ** Malformed payloads *)



Lemma HandleFunc_mounted c name h d w w1 hf :
  HandleFunc c name h d w = (w1, Done hf) → is_Some (ctrls w !! c).
Proof.
  unfold HandleFunc, MiddlewareChain.
  destruct (ctrls w !! c) as [ctrl|]; [eauto | done].
Qed.

(** The closure of a mounted action, field by field; the action only
    shows in the composed [middleware]. *)
Lemma HandleFunc_fields c name h d w w1 hf :
  wf_world w → HandleFunc c name h d w = (w1, Done hf) →
  hf_ctrl hf = c ∧ hf_name hf = name ∧ hf_d hf = d ∧
  hf_ml hf = sl_len (hf_chain hf) ∧
  wf_slice (arrays w1) (hf_chain hf) ∧
  elems (arrays w1) (hf_chain hf) = app_chain w ++ ctrl_chain w c ∧
  wf_world w1 ∧
  ∀ h', ∃ hf', HandleFunc c name h' d w = (w1, Done hf') ∧
               hf_chain hf' = hf_chain hf.
Proof.
  intros Hwf Hmount.
  destruct (HandleFunc_mounted _ _ _ _ _ _ _ Hmount) as [ctrl0 Hc].
  destruct (MiddlewareChain_spec w c ctrl0 Hwf Hc)
    as (σ & s & Hmc & Hel & Hwfs & _ & Hwf1 & _).
  assert (Hall : ∀ h', HandleFunc c name h' d w
    = (set_arrays σ w,
       Done (mkHandleFn c name d
               (foldr (fun m x eh => m (x eh)) (terminal h') (elems σ s))
               s (sl_len s)))).
  { intros h'. unfold HandleFunc. rewrite Hmc.
    by rewrite (wrap_loop_spec _ σ s (terminal h') Hwfs). }
  rewrite Hall in Hmount. injection Hmount as <- <-.
  split_and!; try done. intros h'. rewrite Hall. eauto.
Qed.


(** ** What each call leaves alone *)

Lemma Application_Use_frame m w :
  ∃ σ s, Application_Use m w
         = set_app (mkApplication (app_Logger (app w)) (app_name (app w))
                      (app_errorHandler (app w)) s (app_version (app w))
                      (app_versions (app w)))
                   (set_arrays σ w).
Proof.
  unfold Application_Use.
  destruct (append (arrays w) (app_middleware (app w)) [m]) as [σ s]. eauto.
Qed.

Lemma MiddlewareChain_frame c w : ∃ σ, (MiddlewareChain c w).1 = set_arrays σ w.
Proof.
  unfold MiddlewareChain. destruct (ctrls w !! c) as [ctrl|].
  - destruct (append _ _ _) as [σ s]. simpl. eauto.
  - exists (arrays w). by destruct w.
Qed.

Lemma ApplicationController_Use_frame c m w :
  (ApplicationController_Use c m w).1 = w ∨
  ∃ ctrl σ s, ctrls w !! c = Some ctrl ∧
    (ApplicationController_Use c m w).1
    = set_ctrls (<[c := mkApplicationController (ctrl_Logger ctrl)
                           (ctrl_errorHandler ctrl) s]> (ctrls w))
                (set_arrays σ w).
Proof.
  unfold ApplicationController_Use. destruct (ctrls w !! c) as [ctrl|]; [|by left].
  destruct (append _ _ _) as [σ s]. right. simpl. eauto.
Qed.

Lemma ServeFiles_frame os path filename w :
  (ServeFiles os path filename w).1 = w ∨
  ∃ σ vs l resName,
    (ServeFiles os path filename w).1
    = set_vheap vs
        (set_arrays σ
           (set_ctrls (ctrls w ++ [mkApplicationController
                                     (Logger_New (app_Logger (app w)) "ctrl" resName)
                                     None nil_slice])
              (set_wlog l w))) ∧
    (vs = vheap w ∨
     ∃ i mux, vs = alter (fun ver => mkVersion (ver_name ver) mux
                                       (ver_decoderPools ver) (ver_encoderPools ver)
                                       (ver_encodableContentTypes ver)) i (vheap w)).
Proof.
  unfold ServeFiles.
  destruct (Contains path ":"); [by left|].
  destruct (os_Stat os filename); [by left|]. right.
  set (w1 := Info _ _ w).
  destruct (NewController "FileServer" w1) as [w2 ctrl] eqn:Hnc.
  unfold NewController in Hnc. injection Hnc as <- <-.
  set (h := serveFile _ _ _).
  pose proof (HandleFunc_world (length (ctrls w1)) "Serve" h None
                (set_ctrls (ctrls w1 ++ [mkApplicationController
                     (Logger_New (app_Logger (app w1)) "ctrl" "FileServer")
                     None nil_slice]) w1)) as Hw.
  destruct (MiddlewareChain_frame (length (ctrls w1))
                (set_ctrls (ctrls w1 ++ [mkApplicationController
                     (Logger_New (app_Logger (app w1)) "ctrl" "FileServer")
                     None nil_slice]) w1)) as [σ Hσ].
  rewrite <- Hw in Hσ.
  destruct (HandleFunc _ _ _ _ _) as [w3 [handle|v]]; simpl in Hσ; subst w3.
  - unfold ServeMux_Handle.
    destruct (ServeMux_of _) as [mux|v]; simpl.
    + destruct (app_version (app w)) as [l|]; simpl.
      * eexists σ, _, _, "FileServer". split; [reflexivity|]. right. eauto.
      * eexists σ, _, _, "FileServer". split; [reflexivity|]. by left.
    + eexists σ, _, _, "FileServer". split; [reflexivity|]. by left.
  - simpl. eexists σ, _, _, "FileServer". split; [reflexivity|]. by left.
Qed.

Ltac use_frames w :=
  match goal with
  | |- context [Application_Use ?m w] =>
      let σ := fresh "σ" in let s := fresh "s" in let H := fresh "H" in
      destruct (Application_Use_frame m w) as (σ & s & H); rewrite H; clear H
  | |- context [GetVersion ?n w] =>
      let H := fresh "H" in pose proof (GetVersion_frame n w) as H
  | |- context [ApplicationController_Use ?c ?m w] =>
      let H := fresh "H" in
      destruct (ApplicationController_Use_frame c m w) as [H|(? & ? & ? & ? & H)];
      rewrite H; clear H
  | |- context [MiddlewareChain ?c w] =>
      let σ := fresh "σ" in let H := fresh "H" in
      destruct (MiddlewareChain_frame c w) as [σ H]; rewrite H; clear H
  | |- context [HandleFunc ?c ?n ?h ?d w] =>
      let σ := fresh "σ" in let H := fresh "H" in
      rewrite (HandleFunc_world c n h d w);
      destruct (MiddlewareChain_frame c w) as [σ H]; rewrite H; clear H
  | |- context [ServeFiles ?os ?p ?f w] =>
      let H := fresh "H" in let Hvs := fresh "Hvs" in
      destruct (ServeFiles_frame os p f w) as [H|(? & ? & ? & ? & H & Hvs)];
      rewrite H; clear H
  | |- context [ApplicationController_SetErrorHandler ?c ?h w] =>
      unfold ApplicationController_SetErrorHandler; destruct (ctrls w !! c) eqn:?
  | _ => idtac
  end.

Lemma step_default_version w k : app_version (app (step w k)) = app_version (app w).
Proof.
  destruct k; simpl; use_frames w; simpl; try done.
  by destruct H as (_ & _ & _ & _ & _ & ? & _).
Qed.

Lemma run_calls_default_version ks w :
  app_version (app (run_calls ks w)) = app_version (app w).
Proof.
  revert w. induction ks as [|k ks IH]; intros w; simpl; [done|].
  by rewrite IH, step_default_version.
Qed.

Lemma keeps_versions_refl w : keeps_versions w w.
Proof. split; eauto. Qed.

Lemma keeps_versions_trans w1 w2 w3 :
  keeps_versions w1 w2 → keeps_versions w2 w3 → keeps_versions w1 w3.
Proof.
  intros [Hn1 Hv1] [Hn2 Hv2]. split; [eauto|].
  intros l v Hl. destruct (Hv1 l v Hl) as (v2 & Hl2 & Hname2).
  destruct (Hv2 l v2 Hl2) as (v3 & Hl3 & Hname3). exists v3. split; [done|congruence].
Qed.

Lemma keeps_versions_frame w w' :
  app_versions (app w') = app_versions (app w) → vheap w' = vheap w →
  keeps_versions w w'.
Proof.
  intros Ha Hv. split.
  - unfold version_of. by rewrite Ha.
  - rewrite Hv. eauto.
Qed.

Lemma GetVersion_keeps_versions name w : keeps_versions w (GetVersion name w).1.
Proof.
  destruct (version_of w name) as [l|] eqn:Hl; unfold version_of in Hl.
  - destruct (app_versions (app w)) as [m|] eqn:Hm; [|done]. simpl in Hl.
    rewrite (GetVersion_hit name w m l Hm Hl). apply keeps_versions_refl.
  - rewrite (GetVersion_miss name w Hl). simpl. split.
    + intros n l. unfold version_of. simpl. intros Hn.
      destruct (app_versions (app w)) as [m|]; [|done]. simpl in *.
      rewrite lookup_insert_ne; [done|]. congruence.
    + intros l v Hv. exists v. split; [|done]. by apply lookup_app_l_Some.
Qed.

Lemma step_keeps_versions w k : keeps_versions w (step w k).
Proof.
  destruct k; simpl; try (by apply keeps_versions_frame);
    try apply GetVersion_keeps_versions; use_frames w;
    try (by apply keeps_versions_frame); try apply keeps_versions_refl.
  destruct Hvs as [->|(i & mux & ->)]; [by apply keeps_versions_frame|].
  split; [done|]. intros l v Hl. simpl.
  destruct (decide (l = i)) as [->|Hne].
  - rewrite list_lookup_alter_eq, Hl. simpl. eauto.
  - rewrite list_lookup_alter_ne by done. eauto.
Qed.

Lemma run_calls_keeps_versions ks w : keeps_versions w (run_calls ks w).
Proof.
  revert w. induction ks as [|k ks IH]; intros w; simpl.
  - apply keeps_versions_refl.
  - eapply keeps_versions_trans; [apply step_keeps_versions | apply IH].
Qed.







(** ** Versions *)

Lemma GetVersion_registered name w l :
  version_of w name = Some l → GetVersion name w = (w, Done l).
Proof.
  unfold version_of. intros Hl.
  destruct (app_versions (app w)) as [m|] eqn:Hm; [|done].
  by apply (GetVersion_hit name w m l).
Qed.

Lemma GetVersion_fresh name w :
  version_of w name = None →
  ∃ w', GetVersion name w = (w', Done (length (vheap w))) ∧
        vheap w !! length (vheap w) = None ∧
        vheap w' !! length (vheap w) = Some (mkVersion name NewMux ∅ ∅ []) ∧
        version_of w' name = Some (length (vheap w)).
Proof.
  intros Hnone. rewrite (GetVersion_miss name w Hnone).
  eexists. split; [reflexivity|]. split_and!.
  - by apply lookup_ge_None.
  - simpl. by rewrite lookup_app_r, Nat.sub_diag.
  - unfold version_of. simpl. by rewrite lookup_insert_eq.
Qed.

(** C7: [GetVersion(name)] returns the version registered under [name]
    when there is one, and otherwise makes a new version object with that
    name, an empty mux, empty decoder and encoder pools and no encodable
    content type, registers it and returns it; a later call with the same
    name returns the same object and changes nothing; and no call removes a
    registered version. *)
Theorem GetVersion_lazily_creates name w :
  (∀ l, version_of w name = Some l → GetVersion name w = (w, Done l)) ∧
  (version_of w name = None →
     ∃ w', GetVersion name w = (w', Done (length (vheap w))) ∧
           vheap w !! length (vheap w) = None ∧
           vheap w' !! length (vheap w) = Some (mkVersion name NewMux ∅ ∅ []) ∧
           version_of w' name = Some (length (vheap w))) ∧
  (∀ ks, ∃ l,
     (GetVersion name w).2 = Done l ∧
     GetVersion name (run_calls ks (GetVersion name w).1)
     = (run_calls ks (GetVersion name w).1, Done l)) ∧
  (∀ ks, keeps_versions w (run_calls ks w)).
Proof.
  split_and!.
  - apply GetVersion_registered.
  - apply GetVersion_fresh.
  - intros ks.
    assert (∃ l, (GetVersion name w).2 = Done l ∧
                 version_of (GetVersion name w).1 name = Some l) as (l & Hl & Hreg).
    { destruct (version_of w name) as [l|] eqn:Hv.
      - rewrite (GetVersion_registered name w l Hv). eauto.
      - destruct (GetVersion_fresh name w Hv) as (w' & -> & _ & _ & Hreg). eauto. }
    exists l. split; [done|].
    apply GetVersion_registered.
    by apply (run_calls_keeps_versions ks (GetVersion name w).1).
  - intros ks. apply run_calls_keeps_versions.
Qed.

(** ** Cancellation *)

Lemma keeps_scopes_refl ss : keeps_scopes ss ss.
Proof. intros i sc H. eauto. Qed.

Lemma keeps_scopes_trans ss1 ss2 ss3 :
  keeps_scopes ss1 ss2 → keeps_scopes ss2 ss3 → keeps_scopes ss1 ss3.
Proof.
  intros H12 H23 i sc H.
  destruct (H12 i sc H) as (sc2 & H2 & Hp2 & Hd2).
  destruct (H23 i sc2 H2) as (sc3 & H3 & Hp3 & Hd3).
  exists sc3. split_and!; [done | congruence | auto].
Qed.

Lemma WithCancel_keeps_scopes parent ss : keeps_scopes ss (WithCancel parent ss).2.
Proof.
  intros i sc H. exists sc. split_and!; auto. simpl. by apply lookup_app_l_Some.
Qed.

Lemma cancel_keeps_scopes target ss : keeps_scopes ss (cancel target ss).
Proof.
  intros i sc H. unfold cancel. rewrite list_lookup_imap, H. simpl.
  eexists. split_and!; [reflexivity | done |]. simpl. by intros ->.
Qed.

Lemma step_keeps_scopes w k : keeps_scopes (scopes w) (scopes (step w k)).
Proof.
  destruct k; simpl; use_frames w; simpl;
    try apply keeps_scopes_refl;
    try apply cancel_keeps_scopes;
    try apply (WithCancel_keeps_scopes RootContext).
  - destruct H as (_ & _ & _ & -> & _). apply keeps_scopes_refl.
  - eapply keeps_scopes_trans;
      [apply (WithCancel_keeps_scopes RootContext) | apply cancel_keeps_scopes].
Qed.

Lemma run_calls_keeps_scopes ks w : keeps_scopes (scopes w) (scopes (run_calls ks w)).
Proof.
  revert w. induction ks as [|k ks IH]; intros w; simpl.
  - apply keeps_scopes_refl.
  - eapply keeps_scopes_trans; [apply step_keeps_scopes | apply IH].
Qed.

(** Cancelling a scope cancels the scope and its children. *)
Lemma cancel_self target ss :
  is_Some (ss !! target) → is_done (cancel target ss) target = true.
Proof.
  intros [sc H]. unfold is_done, cancel. rewrite list_lookup_imap, H. simpl.
  destruct (length ss); simpl; rewrite bool_decide_eq_true_2 by done;
    apply orb_true_r.
Qed.

Lemma cancel_child target ss i sc :
  ss !! i = Some sc → sc_parent sc = Some target →
  is_done (cancel target ss) i = true.
Proof.
  intros H Hp. unfold is_done, cancel. rewrite list_lookup_imap, H. simpl.
  pose proof (lookup_lt_Some _ _ _ H) as Hlt.
  destruct (length ss) as [|fuel]; [lia|]. simpl.
  rewrite H. simpl. rewrite Hp.
  destruct fuel; simpl; rewrite (bool_decide_eq_true_2 (target = target)) by done;
    simpl; by rewrite !orb_true_r.
Qed.

Lemma serve_world hf r params w :
  (serve hf r params w).1 = serve_end (serve_begin w).1 (serve_begin w).2.
Proof. reflexivity. Qed.

(** C8: every request gets a fresh scope derived from [RootContext], and
    that scope is cancelled when the serving function is left, whatever its
    outcome, panics included; [Cancel] cancels [RootContext] and with it the
    scope of every request that began and is still being served, whatever
    happened in between. *)
Theorem request_scopes_cancelled hf r params w name ks :
  ((serve_begin w).1 = length (scopes w) ∧
   scopes w !! (serve_begin w).1 = None ∧
   scopes (serve_begin w).2 !! (serve_begin w).1
   = Some (mkScope (Some RootContext) (is_done (scopes w) RootContext)) ∧
   (serve hf r params w).1 = serve_end (serve_begin w).1 (serve_begin w).2 ∧
   is_done (scopes (serve hf r params w).1) (serve_begin w).1 = true) ∧
  is_done (scopes (Cancel (run_calls ks (serve_begin w).2))) (serve_begin w).1 = true ∧
  is_done (scopes (Cancel (run_calls ks (boot name)))) RootContext = true.
Proof.
  assert (Hnew : scopes (serve_begin w).2 !! (serve_begin w).1
                 = Some (mkScope (Some RootContext) (is_done (scopes w) RootContext))).
  { simpl. by rewrite lookup_app_r, Nat.sub_diag. }
  split_and!.
  - reflexivity.
  - simpl. by apply lookup_ge_None.
  - exact Hnew.
  - reflexivity.
  - rewrite serve_world.
    apply (cancel_self (serve_begin w).1 (scopes (serve_begin w).2)).
    by rewrite Hnew.
  - destruct (run_calls_keeps_scopes ks _ _ _ Hnew) as (sc & Hsc & Hp & _).
    by apply (cancel_child RootContext
                (scopes (run_calls ks (serve_begin w).2)) _ sc).
  - destruct (run_calls_keeps_scopes ks (boot name) 0 (mkScope None false))
      as (sc & Hsc & _); [done|].
    apply (cancel_self RootContext (scopes (run_calls ks (boot name)))). eauto.
Qed.

(** ** Serving files *)

Lemma Contains_colon path :
  Contains path ":" = true ↔ ":"%char ∈ list_ascii_of_string path.
Proof.
  induction path as [|a path IH]; cbn [Contains list_ascii_of_string].
  - split; [done | by intros ?%elem_of_nil].
  - rewrite orb_true_iff, IH, elem_of_cons.
    assert (Hp : String.prefix ":" (String a path) = true ↔ ":"%char = a).
    { cbn [String.prefix]. destruct (ascii_dec ":" a) as [Heq|Hne].
      - split; [done | intros _; by destruct path].
      - split; [done | intros Heq; by destruct Hne]. }
    by rewrite Hp.
Qed.

#[local] Arguments NewController : simpl never.
#[local] Arguments HandleFunc : simpl never.
#[local] Arguments ServeMux_Handle : simpl never.

(** [ServeFiles] returns an error exactly when the path holds a colon or
    [os.Stat] fails, and then changes nothing. *)
Lemma ServeFiles_error os path filename w :
  (∃ err, (ServeFiles os path filename w).2 = Done (Some err)) ↔
  Contains path ":" = true ∨ is_Some (os_Stat os filename).
Proof.
  unfold ServeFiles. destruct (Contains path ":") eqn:Hc; simpl.
  - split; [by left | eauto].
  - destruct (os_Stat os filename) as [e|] eqn:Hs; simpl.
    + split; [right; eauto | eauto].
    + split.
      * intros [err Herr]. exfalso. unfold NewController in Herr.
        destruct (HandleFunc _ _ _ _ _) as [w3 [handle|v]]; [|done].
        by destruct (ServeMux_Handle _ _ _ _) as [w4 [[]|v]].
      * intros [H|[e H]]; done.
Qed.

Lemma ServeFiles_error_unchanged os path filename w err :
  (ServeFiles os path filename w).2 = Done (Some err) →
  (ServeFiles os path filename w).1 = w.
Proof.
  unfold ServeFiles. destruct (Contains path ":"); [done|].
  destruct (os_Stat os filename); [done|].
  unfold NewController.
  destruct (HandleFunc _ _ _ _ _) as [w3 [handle|v]]; [|done].
  by destruct (ServeMux_Handle _ _ _ _) as [w4 [[]|v]].
Qed.

(** On an application made by [New], whatever was called since, the
    embedded default version is nil: when both checks pass, [ServeFiles]
    panics on [app.ServeMux()] and registers nothing. *)
Lemma ServeFiles_nil_version os name ks path filename :
  Contains path ":" = false → os_Stat os filename = None →
  (ServeFiles os path filename (run_calls ks (boot name))).2
  = Panic "invalid memory address or nil pointer dereference" ∧
  vheap (ServeFiles os path filename (run_calls ks (boot name))).1
  = vheap (run_calls ks (boot name)).
Proof.
  intros Hcolon Hstat.
  destruct (run_calls_wf ks (boot name) (wf_boot name)) as [Hwf _].
  pose proof (run_calls_default_version ks (boot name)) as Hnil. simpl in Hnil.
  set (w := run_calls ks (boot name)) in *.
  unfold ServeFiles. rewrite Hcolon, Hstat.
  set (w1 := Info _ _ w).
  destruct (frame_step w w1 Hwf) as [Hwf1 _]; try done.
  destruct (NewController_wf "FileServer" w1 Hwf1) as [Hwf2 _].
  unfold NewController in *. simpl in Hwf2. cbv zeta.
  set (w2 := set_ctrls _ w1) in *.
  set (h := serveFile _ _ _).
  assert (Hc : ctrls w2 !! length (ctrls w1)
               = Some (mkApplicationController
                         (Logger_New (app_Logger (app w1)) "ctrl" "FileServer")
                         None nil_slice)).
  { unfold w2. simpl. by rewrite lookup_app_r, Nat.sub_diag. }
  destruct (HandleFunc_spec (length (ctrls w1)) "Serve" h None w2 _ Hwf2 Hc)
    as (σ & s & -> & _).
  unfold ServeMux_Handle, ServeMux_of. simpl. rewrite Hnil. simpl. done.
Qed.

(** C9: the code at a failing input.  On the application returned by
    [New], mounting an existing file on a path without wildcard neither
    registers the route nor returns nil: it panics. *)
Theorem ServeFiles_after_New_panics :
  ServeFiles (disk ["/www/data/index.html"]) "/index.html" "/www/data/index.html"
    (boot "my api")
  = (mkWorld [] []
       [mkApplicationController [("app", "my api"); ("ctrl", "FileServer")] None
          nil_slice]
       (New "my api")
       [mkLogRecord "info" "mount"
          [("app", "my api"); ("file", "/www/data/index.html");
           ("route", "GET /index.html")]]
       init_scopes,
     Panic "invalid memory address or nil pointer dereference").
Proof. reflexivity. Qed.

(* ================================================================== *)
(** * Part III: the code on concrete inputs                            *)
(* ================================================================== *)

(** The chain runs in registration order around the action, and the
    backstop answers for an action that wrote nothing. *)
Example shop_request :
  (fun res => (ResponseStatus res.1, ctx_Body res.1, messages res, res.2))
    <$> mount_and_serve 0 "show" idle None (post 0) shop
  = Some (500%Z, "unhandled request",
          ["enter m1"; "enter a"; "exit a"; "exit m1"], Done tt).
Proof. reflexivity. Qed.

(** The chain captured by [HandleFunc] may share its array with the
    application's slice: after another controller's action is mounted, the
    malformed-payload path of the first action runs the other controller's
    middleware, while its composed handler still runs its own. *)
Example decode_error_chain_read_late :
  match HandleFunc 0 "create" idle (Some (refuse "unexpected EOF")) busy with
  | (w1, Done hf) =>
      let w2 := (HandleFunc 1 "list" idle None w1).1 in
      (messages (serve hf (post 2) [] w1).2,
       messages (serve hf (post 2) [] w2).2,
       messages (serve hf (post 0) [] w2).2)
  | (_, Panic _) => ([], [], [])
  end
  = (["enter m1"; "enter m2"; "enter m3"; "enter a";
      "exit a"; "exit m3"; "exit m2"; "exit m1"],
     ["enter m1"; "enter m2"; "enter m3"; "enter b";
      "exit b"; "exit m3"; "exit m2"; "exit m1"],
     ["enter m1"; "enter m2"; "enter m3"; "enter a";
      "exit a"; "exit m3"; "exit m2"; "exit m1"]).
Proof. reflexivity. Qed.

(** A panicking action leaves the request scope cancelled. *)
Example panic_cancels_scope :
  (fun res => (is_done (scopes res.1) 1, res.2.2))
    (serve (mkHandleFn 0 "show" None (fun _ => lift (Panic "boom")) nil_slice 0)
       (post 0) [] cellar)
  = (true, Panic "boom").
Proof. reflexivity. Qed.


(** C3, counterexample: with the application's error handler set to nil
    and no controller error handler, an action that writes nothing and
    returns nil leaves the request without any response. *)
Lemma unhandled_request_unanswered :
  (fun res => (ResponseStatus res.1, ctx_Body res.1, res.2))
    <$> mount_and_serve 0 "show" idle None (post 0) silent_cellar
  = Some (0%Z, "", Done tt).
Proof. reflexivity. Qed.

(** C5, counterexample: on a context that already carries the response
    200 "ok", the verbose handler does not answer a bad-request error with
    status 400 and the error message, nor another error with status 500:
    the response stays 200 "ok"; the same holds for the terse handler. *)
Lemma error_handlers_on_answered_context :
  ResponseWritten answered = true ∧
  map (fun res => (ResponseStatus res.1, ctx_Body res.1, res.2))
    [DefaultErrorHandler (BadRequestError "missing name") answered;
     DefaultErrorHandler (errorString "boom") answered;
     TerseErrorHandler (BadRequestError "missing name") answered;
     TerseErrorHandler (errorString "boom") answered]
  = [(200%Z, "ok", Done tt); (200%Z, "ok", Done tt);
     (200%Z, "ok", Done tt); (200%Z, "ok", Done tt)].
Proof. split; reflexivity. Qed.

(** ** The theorems at concrete inputs *)

(** Mounting an action on the shop's controller. *)
Lemma HandleFunc_wraps_in_registration_order_witness :
  ctrls shop !! 0 = Some shop_bottles ∧
  app_chain shop ++ ctrl_chain shop 0
  = map (fun p => decorate p.1 p.2)
      [(note "enter m1", note "exit m1"); (note "enter a", note "exit a")] ∧
  ∃ w' hf,
    HandleFunc 0 "show" idle None shop = (w', Done hf) ∧
    (∀ eh, hf_middleware hf eh
           = foldr (fun m x => m x) (terminal idle eh)
               (app_chain shop ++ ctrl_chain shop 0)) ∧
    (∀ eh ctx,
       hf_middleware hf eh ctx
       = (_ ← in_order [note "enter m1"; note "enter a"];
          r ← terminal idle eh;
          _ ← in_order [note "exit a"; note "exit m1"];
          mret r) ctx).
Proof.
  split; [reflexivity|]. split; [reflexivity|].
  destruct (HandleFunc_wraps_in_registration_order "cellar"
              [Call_Use (tracer "m1"); Call_NewController "bottles";
               Call_ControllerUse 0 (tracer "a")]
              0 shop_bottles "show" idle None eq_refl)
    as (w' & hf & Hmount & Hfold & Hdecorate).
  exists w', hf. split; [exact Hmount|]. split; [exact Hfold|].
  intros eh ctx.
  exact (Hdecorate [(note "enter m1", note "exit m1"); (note "enter a", note "exit a")]
           eh ctx eq_refl).
Defined.


(** An action that writes nothing, on the cellar. *)
Lemma unhandled_request_backstop_witness :
  invoke_chain show_closure [] bottles (handlers_of cellar bottles)
    (fresh_context (post 0))
  = (action_context "show" (post 0), Done None) ∧
  ResponseStatus (action_context "show" (post 0)) = 0%Z ∧
  effective_handler (handlers_of cellar bottles) = Some DefaultErrorHandler ∧
  dispatch show_closure [] bottles (handlers_of cellar bottles) (fresh_context (post 0))
  = (mkContext 1 (post 0) [] [("app", "cellar"); ("ctrl", "bottles"); ("action", "show")]
       ∅ 500%Z "unhandled request" [], Done tt).
Proof.
  split_and!; [reflexivity | reflexivity | reflexivity |].
  exact (proj1 (proj2 (proj1 (unhandled_request_backstop cellar bottles show_closure []
                                (fresh_context (post 0))
                                (action_context "show" (post 0)) None eq_refl)
                              eq_refl))
               eq_refl).
Defined.

(** An action that returns an error, on the cellar. *)
Lemma terminal_routes_action_error_witness :
  ResponseWritten (fresh_context (post 0)) = false ∧
  refuse "boom" (fresh_context (post 0))
  = (fresh_context (post 0), Done (Some (errorString "boom"))) ∧
  terminal (refuse "boom") (handlers_of cellar bottles) (fresh_context (post 0))
  = match ctrl_errorHandler bottles with
    | Some handler => (_ ← handler (errorString "boom"); mret None) (fresh_context (post 0))
    | None =>
        match app_errorHandler (app cellar) with
        | Some handler =>
            (_ ← handler (errorString "boom"); mret None) (fresh_context (post 0))
        | None => (fresh_context (post 0), Done None)
        end
    end.
Proof.
  split_and!; [reflexivity | reflexivity |].
  exact (terminal_routes_action_error cellar bottles (refuse "boom")
           (fresh_context (post 0)) (fresh_context (post 0)) (errorString "boom")
           eq_refl eq_refl).
Defined.

(** Both handlers on a bad-request error and on another error, on a
    fresh context and on one that has its response. *)
Lemma error_handlers_classify_witness :
  ResponseWritten (fresh_context (post 0)) = false ∧
  isBadRequestError (BadRequestError "missing name") = true ∧
  isBadRequestError (errorString "boom") = false ∧
  (DefaultErrorHandler (BadRequestError "missing name") (fresh_context (post 0))
   = (mkContext 1 (post 0) [] [] (<["Content-Type" := "application/json"]> ∅)
        400%Z "missing name" [], Done tt) ∧
   TerseErrorHandler (BadRequestError "missing name") (fresh_context (post 0))
   = DefaultErrorHandler (BadRequestError "missing name") (fresh_context (post 0))) ∧
  (DefaultErrorHandler (errorString "boom") (fresh_context (post 0))
   = (mkContext 1 (post 0) [] [] ∅ 500%Z "boom" [], Done tt) ∧
   TerseErrorHandler (errorString "boom") (fresh_context (post 0))
   = (mkContext 1 (post 0) [] [] ∅ 500%Z "" [], Done tt)) ∧
  ResponseWritten answered = true ∧
  (DefaultErrorHandler (errorString "boom") answered).2 = Done tt ∧
  ResponseStatus (DefaultErrorHandler (errorString "boom") answered).1 = 200%Z ∧
  ctx_Body (DefaultErrorHandler (errorString "boom") answered).1 = "ok" ∧
  (TerseErrorHandler (errorString "boom") answered).2 = Done tt ∧
  ResponseStatus (TerseErrorHandler (errorString "boom") answered).1 = 200%Z ∧
  ctx_Body (TerseErrorHandler (errorString "boom") answered).1 = "ok".
Proof.
  refine (conj eq_refl (conj eq_refl (conj eq_refl (conj _ (conj _ (conj eq_refl _)))))).
  - exact (proj1 (proj1 (error_handlers_classify (fresh_context (post 0))
                           (BadRequestError "missing name")) eq_refl) eq_refl).
  - exact (proj2 (proj1 (error_handlers_classify (fresh_context (post 0))
                           (errorString "boom")) eq_refl) eq_refl).
  - exact (proj2 (error_handlers_classify answered (errorString "boom")) eq_refl).
Defined.

(** The chain of the shop's controller. *)
Lemma MiddlewareChain_app_then_controller_witness :
  ctrls shop !! 0 = Some shop_bottles ∧
  (∃ w' s, MiddlewareChain 0 shop = (w', Done s) ∧
           elems (arrays w') s = app_chain shop ++ ctrl_chain shop 0) ∧
  (∀ k, app_chain (step shop k) = app_chain shop ++ registers_app k ∧
        ctrl_chain (step shop k) 0 = ctrl_chain shop 0 ++ registers_ctrl 0 k) ∧
  app_chain (boot "cellar") = [] ∧
  (∀ resName,
     ctrl_chain (NewController resName shop).1 (NewController resName shop).2 = []).
Proof.
  split; [reflexivity|].
  exact (MiddlewareChain_app_then_controller "cellar"
           [Call_Use (tracer "m1"); Call_NewController "bottles";
            Call_ControllerUse 0 (tracer "a")]
           0 shop_bottles eq_refl).
Defined.

(** The first and the second call for version v1. *)
Lemma GetVersion_lazily_creates_witness :
  version_of (boot "cellar") "v1" = None ∧
  (∃ w', GetVersion "v1" (boot "cellar") = (w', Done 0) ∧
         vheap (boot "cellar") !! 0 = None ∧
         vheap w' !! 0 = Some (mkVersion "v1" NewMux ∅ ∅ []) ∧
         version_of w' "v1" = Some 0) ∧
  version_of (GetVersion "v1" (boot "cellar")).1 "v1" = Some 0 ∧
  GetVersion "v1" (GetVersion "v1" (boot "cellar")).1
  = ((GetVersion "v1" (boot "cellar")).1, Done 0).
Proof.
  refine (conj eq_refl (conj _ (conj eq_refl _))).
  - exact (proj1 (proj2 (GetVersion_lazily_creates "v1" (boot "cellar"))) eq_refl).
  - exact (proj1 (GetVersion_lazily_creates "v1" (GetVersion "v1" (boot "cellar")).1)
             0 eq_refl).
Defined.


(* ================================================================== *)
(** * Part IV: further properties of the code                          *)
(* ================================================================== *)

(** ** The terminal handler *)

(** X1: when a response is already written, the terminal handler does
    not call the action, calls no error handler and returns nil. *)
Theorem terminal_skips_action_after_response h eh ctx :
  ResponseWritten ctx = true → terminal h eh ctx = (ctx, Done None).
Proof.
  intros Hw. unfold terminal. rewrite exec_bind_unfold. unfold gets at 1.
  by rewrite Hw.
Qed.

Lemma terminal_unwritten h eh ctx :
  ResponseWritten ctx = false →
  terminal h eh ctx
  = match h ctx with
    | (c1, Done (Some err)) =>
        match HandleError eh err c1 with
        | (c2, Done _) => (c2, Done None)
        | (c2, Panic v) => (c2, Panic v)
        end
    | (c1, Done None) => (c1, Done None)
    | (c1, Panic v) => (c1, Panic v)
    end.
Proof.
  intros Hw. unfold terminal. rewrite exec_bind_unfold. unfold gets at 1.
  rewrite Hw. cbn [negb]. rewrite !exec_bind_unfold.
  destruct (h ctx) as [c1 [[err|]|v]]; try done.
Qed.

(** X2: the terminal handler never returns an error to the middleware
    around it: what it returns is nil.  When the action returns nil the
    context is as the action left it and no error handler runs; a panic of
    the action goes through. *)
Theorem terminal_returns_nil h eh ctx :
  (∀ c r, terminal h eh ctx = (c, Done r) → r = None) ∧
  (ResponseWritten ctx = false →
   (∀ c1, h ctx = (c1, Done None) → terminal h eh ctx = (c1, Done None)) ∧
   (∀ c1 v, h ctx = (c1, Panic v) → terminal h eh ctx = (c1, Panic v))).
Proof.
  split.
  - intros c r. destruct (ResponseWritten ctx) eqn:Hw.
    + unfold terminal. rewrite exec_bind_unfold. unfold gets at 1.
      rewrite Hw. by intros [= _ <-].
    + rewrite (terminal_unwritten h eh ctx Hw).
      destruct (h ctx) as [c1 [[err|]|v]]; [|by intros [= _ <-]|done].
      destruct (HandleError eh err c1) as [c2 [[]|v]]; [|done].
      by intros [= _ <-].
  - intros Hw. rewrite (terminal_unwritten h eh ctx Hw).
    split; intros; by rewrite H.
Qed.

(** ** Requests that reach the action *)

Lemma HandleFunc_middleware c name h d w w1 hf :
  wf_world w → HandleFunc c name h d w = (w1, Done hf) →
  ∀ eh, hf_middleware hf eh = compose (app_chain w ++ ctrl_chain w c) (terminal h eh).
Proof.
  intros Hwf Hmount eh.
  destruct (HandleFunc_mounted _ _ _ _ _ _ _ Hmount) as [ctrl0 Hc].
  destruct (HandleFunc_spec c name h d w ctrl0 Hwf Hc) as (σ & s & Heq & _).
  rewrite Hmount in Heq. injection Heq as _ ->. simpl. apply foldr_pointwise.
Qed.

Lemma invoke_chain_no_decode hf σ ctrl eh ctx :
  hf_d hf = None ∨ (ContentLength (ctx_Request ctx) ≤ 0)%Z →
  invoke_chain hf σ ctrl eh ctx
  = hf_middleware hf eh
      (set_Logger (Logger_New (ctrl_Logger ctrl) "action" (hf_name hf)) ctx).
Proof.
  intros Hno. unfold invoke_chain.
  rewrite exec_bind_unfold. unfold modify at 1.
  rewrite exec_bind_unfold. unfold gets at 1. cbn [ctx_Request set_Logger].
  destruct (hf_d hf) as [df|].
  - destruct Hno as [Hno|Hno]; [done|].
    destruct (Z.ltb_spec 0 (ContentLength (ctx_Request ctx))); [lia|].
    by rewrite !exec_bind_unfold.
  - by rewrite !exec_bind_unfold.
Qed.

Lemma invoke_chain_decode hf σ ctrl eh ctx df :
  hf_d hf = Some df → (0 < ContentLength (ctx_Request ctx))%Z →
  invoke_chain hf σ ctrl eh ctx
  = match df (set_Logger (Logger_New (ctrl_Logger ctrl) "action" (hf_name hf)) ctx) with
    | (ctx1, Done None) => hf_middleware hf eh ctx1
    | (ctx1, Done (Some err)) =>
        match wrap_loop (fun m x => m x) σ (hf_chain hf) (hf_ml hf)
                (invalidPayload err) with
        | Done handler => handler ctx1
        | Panic v => (ctx1, Panic v)
        end
    | (ctx1, Panic v) => (ctx1, Panic v)
    end.
Proof.
  intros Hd Hlen. unfold invoke_chain.
  rewrite exec_bind_unfold. unfold modify at 1.
  rewrite exec_bind_unfold. unfold gets at 1. cbn [ctx_Request set_Logger].
  rewrite Hd. destruct (Z.ltb_spec 0 (ContentLength (ctx_Request ctx))); [|lia].
  rewrite exec_bind_unfold.
  destruct (df _) as [ctx1 [[err|]|v]]; [| |done].
  - rewrite exec_bind_unfold. unfold lift.
    by destruct (wrap_loop _ _ _ _ _).
  - by rewrite exec_bind_unfold.
Qed.

(** X3: for a request without body, or an action mounted without decode
    function, the decode function is not called; the handler that runs is
    the action wrapped in the middleware registered when the action was
    mounted, whatever was registered since, with the error handlers in
    force when the request is served. *)
Theorem request_without_payload name0 ks0 c name h d w1 hf ks r params ctrl :
  HandleFunc c name h d (run_calls ks0 (boot name0)) = (w1, Done hf) →
  ctrls (run_calls ks w1) !! c = Some ctrl →
  d = None ∨ (ContentLength r ≤ 0)%Z →
  (serve hf r params (run_calls ks w1)).2
  = (_ ← compose (app_chain (run_calls ks0 (boot name0)) ++
                  ctrl_chain (run_calls ks0 (boot name0)) c)
           (terminal h (handlers_of (run_calls ks w1) ctrl));
     respond_unhandled (handlers_of (run_calls ks w1) ctrl))
      (set_Logger (Logger_New (ctrl_Logger ctrl) "action" name)
         (NewContext (length (scopes (run_calls ks w1))) r params)).
Proof.
  intros Hmount Hctrl Hno.
  destruct (run_calls_wf ks0 (boot name0) (wf_boot name0)) as [Hwf _].
  destruct (HandleFunc_fields _ _ _ _ _ _ _ Hwf Hmount) as (Hfc & Hfn & Hfd & _).
  rewrite (serve_result hf r params _ ctrl) by (by rewrite Hfc).
  unfold dispatch. rewrite !exec_bind_unfold.
  rewrite invoke_chain_no_decode by (rewrite Hfd; simpl; tauto).
  by rewrite (HandleFunc_middleware _ _ _ _ _ _ _ Hwf Hmount), Hfn.
Qed.

(** X4: for a request with a body and an action mounted with a decode
    function, the decode function runs first, on the fresh context; when it
    returns nil the action runs, wrapped as at mount time, on the context
    the decode function left; when it panics nothing else runs. *)
Theorem request_with_payload name0 ks0 c name h df w1 hf ks r params ctrl :
  HandleFunc c name h (Some df) (run_calls ks0 (boot name0)) = (w1, Done hf) →
  ctrls (run_calls ks w1) !! c = Some ctrl →
  (0 < ContentLength r)%Z →
  (∀ ctx1,
     df (set_Logger (Logger_New (ctrl_Logger ctrl) "action" name)
           (NewContext (length (scopes (run_calls ks w1))) r params))
     = (ctx1, Done None) →
     (serve hf r params (run_calls ks w1)).2
     = (_ ← compose (app_chain (run_calls ks0 (boot name0)) ++
                     ctrl_chain (run_calls ks0 (boot name0)) c)
              (terminal h (handlers_of (run_calls ks w1) ctrl));
        respond_unhandled (handlers_of (run_calls ks w1) ctrl)) ctx1) ∧
  (∀ ctx1 v,
     df (set_Logger (Logger_New (ctrl_Logger ctrl) "action" name)
           (NewContext (length (scopes (run_calls ks w1))) r params))
     = (ctx1, Panic v) →
     (serve hf r params (run_calls ks w1)).2 = (ctx1, Panic v)).
Proof.
  intros Hmount Hctrl Hlen.
  destruct (run_calls_wf ks0 (boot name0) (wf_boot name0)) as [Hwf _].
  destruct (HandleFunc_fields _ _ _ _ _ _ _ Hwf Hmount) as (Hfc & Hfn & Hfd & _).
  rewrite (serve_result hf r params _ ctrl) by (by rewrite Hfc).
  unfold dispatch.
  split; intros ctx1; [|intros v]; intros Hdf; rewrite !exec_bind_unfold;
    rewrite (invoke_chain_decode hf _ ctrl _ _ df Hfd) by done;
    rewrite Hfn, Hdf; [|done].
  by rewrite (HandleFunc_middleware _ _ _ _ _ _ _ Hwf Hmount).
Qed.

(** ** Error handlers on a context that already has a response *)

(** X5: on a context that already carries a response, neither built-in
    error handler escalates: the failed write is logged, once, the response
    stays as it was, and the handler returns normally. *)
Theorem error_handlers_log_failed_write e ctx :
  ResponseWritten ctx = true →
  (∃ ctx', DefaultErrorHandler e ctx = (ctx', Done tt) ∧
           ResponseStatus ctx' = ResponseStatus ctx ∧ ctx_Body ctx' = ctx_Body ctx ∧
           map lr_msg (ctx_Log ctx')
           = map lr_msg (ctx_Log ctx) ++
             ["failed to send default error handler response"]) ∧
  (∃ ctx', TerseErrorHandler e ctx = (ctx', Done tt) ∧
           ResponseStatus ctx' = ResponseStatus ctx ∧ ctx_Body ctx' = ctx_Body ctx ∧
           map lr_msg (ctx_Log ctx')
           = map lr_msg (ctx_Log ctx) ++
             ["failed to send terse error handler response"]).
Proof.
  intros Hw. unfold DefaultErrorHandler, TerseErrorHandler.
  split; destruct (isBadRequestError e);
    repeat (rewrite exec_bind_unfold; simpl);
    rewrite RespondBytes_written by exact Hw; simpl;
    (eexists; split; [reflexivity|]; simpl; by rewrite map_app).
Qed.

(** X6: [ServeFiles] refuses a path that holds a colon before it looks at
    the disk, and a file that [os.Stat] does not find, with the error of
    [os.Stat] in its message; these are its only errors, and with an error
    it changes nothing. *)
Theorem ServeFiles_rejects os path filename w :
  (":"%char ∈ list_ascii_of_string path →
   ServeFiles os path filename w
   = (w, Done (Some (errorString
        "path may only include wildcards that match the entire end of the URL (e.g. *filepath)")))) ∧
  (∀ e, ":"%char ∉ list_ascii_of_string path → os_Stat os filename = Some e →
        ServeFiles os path filename w
        = (w, Done (Some (errorString ("ServeFiles: " +:+ Error e))))) ∧
  (∀ err, (ServeFiles os path filename w).2 = Done (Some err) →
          (":"%char ∈ list_ascii_of_string path ∨ is_Some (os_Stat os filename)) ∧
          (ServeFiles os path filename w).1 = w).
Proof.
  split_and!.
  - intros Hin%Contains_colon. unfold ServeFiles. by rewrite Hin.
  - intros e Hnotin Hstat. unfold ServeFiles.
    destruct (Contains path ":") eqn:Hc.
    + by apply Contains_colon in Hc.
    + by rewrite Hstat.
  - intros err Herr. split.
    + rewrite <- Contains_colon. apply (ServeFiles_error os path filename w). eauto.
    + by eapply ServeFiles_error_unchanged.
Qed.

(** ** Error handlers through other calls *)

Lemma keeps_handlers_refl w : keeps_handlers w w.
Proof. split_and!; [done | eauto | congruence]. Qed.

Lemma keeps_handlers_trans w1 w2 w3 :
  keeps_handlers w1 w2 → keeps_handlers w2 w3 → keeps_handlers w1 w3.
Proof.
  intros (Ha1 & Hold1 & Hnew1) (Ha2 & Hold2 & Hnew2). split_and!.
  - congruence.
  - intros c ctrl Hc. destruct (Hold1 c ctrl Hc) as (ctrl2 & Hc2 & He2).
    destruct (Hold2 c ctrl2 Hc2) as (ctrl3 & Hc3 & He3).
    exists ctrl3. split; [done | congruence].
  - intros c ctrl3 Hc3 Hc1.
    destruct (ctrls w2 !! c) as [ctrl2|] eqn:Hc2.
    + destruct (Hold2 c ctrl2 Hc2) as (ctrl3' & Hc3' & He3).
      rewrite Hc3 in Hc3'. injection Hc3' as <-. rewrite He3. eauto.
    + eauto.
Qed.

Lemma keeps_handlers_frame w w' :
  app_errorHandler (app w') = app_errorHandler (app w) → ctrls w' = ctrls w →
  keeps_handlers w w'.
Proof. intros Ha Hc. split_and!; [done | rewrite Hc; eauto | rewrite Hc; congruence]. Qed.

Lemma keeps_handlers_snoc w w' ctrl :
  app_errorHandler (app w') = app_errorHandler (app w) →
  ctrls w' = ctrls w ++ [ctrl] → ctrl_errorHandler ctrl = None →
  keeps_handlers w w'.
Proof.
  intros Ha Hc Hnone. split_and!; [done | |]; rewrite Hc.
  - intros c x Hx. exists x. split; [by apply lookup_app_l_Some | done].
  - intros c x [Hx|[_ Hx]]%lookup_app_Some Hnew; [congruence|].
    by apply list_lookup_singleton_Some in Hx as [_ <-].
Qed.

Lemma keeps_handlers_insert w w' c0 ctrl0 new :
  app_errorHandler (app w') = app_errorHandler (app w) →
  ctrls w !! c0 = Some ctrl0 → ctrls w' = <[c0 := new]> (ctrls w) →
  ctrl_errorHandler new = ctrl_errorHandler ctrl0 →
  keeps_handlers w w'.
Proof.
  intros Ha H0 Hc Hnew.
  assert (Hlt : c0 < length (ctrls w)) by (by eapply lookup_lt_Some).
  split_and!; [done | |]; rewrite Hc.
  - intros c x Hx. destruct (decide (c = c0)) as [->|Hne].
    + rewrite list_lookup_insert_eq by done. exists new. split; [done | congruence].
    + rewrite list_lookup_insert_ne by done. eauto.
  - intros c x Hx Hnone. destruct (decide (c = c0)) as [->|Hne]; [congruence|].
    rewrite list_lookup_insert_ne in Hx by done. congruence.
Qed.

Lemma step_keeps_handlers w k :
  sets_error_handler k = false → keeps_handlers w (step w k).
Proof.
  intros Hk. destruct k; simpl in *; try done; use_frames w;
    try apply keeps_handlers_refl;
    try (by apply keeps_handlers_frame).
  - destruct H as (_ & _ & Hc & _ & Ha & _). by apply keeps_handlers_frame.
  - by eapply keeps_handlers_snoc.
  - by eapply keeps_handlers_insert.
  - by eapply keeps_handlers_snoc.
Qed.

Lemma run_calls_keeps_handlers ks w :
  forallb (fun k => negb (sets_error_handler k)) ks = true →
  keeps_handlers w (run_calls ks w).
Proof.
  revert w. induction ks as [|k ks IH]; intros w Hks; simpl in *.
  - apply keeps_handlers_refl.
  - apply andb_prop in Hks as [Hk Hks]. apply negb_true_iff in Hk.
    eapply keeps_handlers_trans; [by apply step_keeps_handlers | by apply IH].
Qed.

(** X7: an error handler set on a controller is the one [ErrorHandler]
    returns and the one [HandleError] calls for that controller, whatever
    the application's handler is, through every later call that sets no
    error handler; the other controllers keep theirs. *)
Theorem controller_error_handler_overrides w c ctrl handler ks :
  ctrls w !! c = Some ctrl →
  forallb (fun k => negb (sets_error_handler k)) ks = true →
  (∃ ctrl',
     ctrls (run_calls ks (ApplicationController_SetErrorHandler c (Some handler) w).1)
       !! c = Some ctrl' ∧
     ApplicationController_ErrorHandler ctrl' = Some handler ∧
     ∀ err ctx,
       HandleError
         (handlers_of
            (run_calls ks (ApplicationController_SetErrorHandler c (Some handler) w).1)
            ctrl') err ctx
       = handler err ctx) ∧
  (∀ c2 ctrl2, c2 ≠ c → ctrls w !! c2 = Some ctrl2 →
     ∃ ctrl2',
       ctrls (run_calls ks (ApplicationController_SetErrorHandler c (Some handler) w).1)
         !! c2 = Some ctrl2' ∧
       ctrl_errorHandler ctrl2' = ctrl_errorHandler ctrl2).
Proof.
  intros Hc Hks.
  assert (Hlt : c < length (ctrls w)) by (by eapply lookup_lt_Some).
  set (w1 := (ApplicationController_SetErrorHandler c (Some handler) w).1).
  assert (Hw1 : ctrls w1
                = <[c := mkApplicationController (ctrl_Logger ctrl) (Some handler)
                           (ctrl_middleware ctrl)]> (ctrls w)).
  { unfold w1, ApplicationController_SetErrorHandler. by rewrite Hc. }
  destruct (run_calls_keeps_handlers ks w1 Hks) as (_ & Hold & _).
  split.
  - destruct (Hold c (mkApplicationController (ctrl_Logger ctrl) (Some handler)
                        (ctrl_middleware ctrl))) as (ctrl' & Hc' & He').
    { rewrite Hw1. by apply list_lookup_insert_eq. }
    exists ctrl'. split_and!; [done | done |].
    intros err ctx. unfold HandleError, handlers_of. simpl. by rewrite He'.
  - intros c2 ctrl2 Hne Hc2. apply Hold.
    rewrite Hw1. by rewrite list_lookup_insert_ne.
Qed.

(** X8: an error handler set on the application is the one
    [ErrorHandler] returns, and the one [HandleError] calls for every
    controller without a handler of its own, the controllers made later
    included, through every later call that sets no error handler; setting
    nil makes [HandleError] do nothing for these controllers. *)
Theorem application_error_handler_applies w handler ks c ctrl' :
  forallb (fun k => negb (sets_error_handler k)) ks = true →
  ctrls (run_calls ks (Application_SetErrorHandler handler w)) !! c = Some ctrl' →
  ctrl_errorHandler ctrl' = None →
  Application_ErrorHandler (app (run_calls ks (Application_SetErrorHandler handler w)))
  = handler ∧
  ∀ err ctx,
    HandleError (handlers_of (run_calls ks (Application_SetErrorHandler handler w)) ctrl')
      err ctx
    = match handler with
      | Some f => f err ctx
      | None => (ctx, Done tt)
      end.
Proof.
  intros Hks Hc Hnone.
  destruct (run_calls_keeps_handlers ks (Application_SetErrorHandler handler w) Hks)
    as (Ha & _ & _).
  assert (Ha' : app_errorHandler
                  (app (run_calls ks (Application_SetErrorHandler handler w)))
                = handler) by (by rewrite Ha).
  split; [exact Ha'|].
  intros err ctx. unfold HandleError, handlers_of. cbn [eh_ctrl eh_app].
  rewrite Hnone, Ha'. by destruct handler.
Qed.

(** ** Versions and their names *)

Lemma versions_named_frame w w' :
  versions_named w → app_versions (app w') = app_versions (app w) →
  (∀ l v, vheap w !! l = Some v →
     ∃ v', vheap w' !! l = Some v' ∧ ver_name v' = ver_name v) →
  versions_named w'.
Proof.
  intros Hn Ha Hv name l Hl. unfold version_of in Hl. rewrite Ha in Hl.
  destruct (Hn name l Hl) as (v & Hlv & Hname).
  destruct (Hv l v Hlv) as (v' & Hlv' & Hname'). exists v'. split; [done|congruence].
Qed.

Lemma GetVersion_versions_named name w :
  versions_named w → versions_named (GetVersion name w).1.
Proof.
  intros Hn. destruct (version_of w name) as [l|] eqn:Hl.
  - by rewrite (GetVersion_registered name w l Hl).
  - rewrite (GetVersion_miss name w Hl). simpl.
    intros n l. unfold version_of. simpl.
    destruct (decide (n = name)) as [->|Hne].
    + rewrite lookup_insert_eq. intros [= <-]. eexists.
      split; [by rewrite lookup_app_r, Nat.sub_diag | reflexivity].
    + rewrite lookup_insert_ne by done. intros Hl'.
      destruct (Hn n l) as (v & Hv & Hname).
      { unfold version_of. by destruct (app_versions (app w)). }
      exists v. split; [by apply lookup_app_l_Some | done].
Qed.

Lemma step_versions_named w k : versions_named w → versions_named (step w k).
Proof.
  intros Hn. pose proof (step_keeps_versions w k) as [_ Hkeep].
  destruct k; simpl in *; try apply GetVersion_versions_named; try done;
    (apply (versions_named_frame w); [done | | done]);
    use_frames w; try done.
Qed.

Lemma run_calls_versions_named ks w :
  versions_named w → versions_named (run_calls ks w).
Proof.
  revert w. induction ks as [|k ks IH]; intros w Hn; simpl; [done|].
  apply IH. by apply step_versions_named.
Qed.

Lemma versions_named_boot name : versions_named (boot name).
Proof. intros n l H. done. Qed.

Lemma GetVersion_returns_registered name w :
  ∃ l, (GetVersion name w).2 = Done l ∧ version_of (GetVersion name w).1 name = Some l.
Proof.
  destruct (version_of w name) as [l|] eqn:Hv.
  - rewrite (GetVersion_registered name w l Hv). eauto.
  - destruct (GetVersion_fresh name w Hv) as (w' & -> & _ & _ & Hreg). eauto.
Qed.

(** X9: in every world built through the API, the version [GetVersion]
    returns for a name answers that name to [Version()], and two different
    names get two different version objects. *)
Theorem versions_carry_their_names name0 ks n1 n2 :
  ∃ w1 l1 w2 l2 v1 v2,
    GetVersion n1 (run_calls ks (boot name0)) = (w1, Done l1) ∧
    GetVersion n2 w1 = (w2, Done l2) ∧
    vheap w2 !! l1 = Some v1 ∧ Version v1 = n1 ∧
    vheap w2 !! l2 = Some v2 ∧ Version v2 = n2 ∧
    (n1 ≠ n2 → l1 ≠ l2).
Proof.
  pose proof (run_calls_versions_named ks _ (versions_named_boot name0)) as Hn.
  set (w := run_calls ks (boot name0)) in *.
  pose proof (GetVersion_versions_named n1 w Hn) as Hn1.
  destruct (GetVersion_returns_registered n1 w) as (l1 & Hg1 & Hreg1).
  pose proof (GetVersion_versions_named n2 _ Hn1) as Hn2.
  destruct (GetVersion_returns_registered n2 (GetVersion n1 w).1) as (l2 & Hg2 & Hreg2).
  destruct (GetVersion n1 w) as [w1 o1] eqn:E1. simpl in *. subst o1.
  destruct (GetVersion n2 w1) as [w2 o2] eqn:E2. simpl in *. subst o2.
  assert (Hreg1' : version_of w2 n1 = Some l1).
  { pose proof (GetVersion_keeps_versions n2 w1) as [Hk _].
    rewrite E2 in Hk. by apply Hk. }
  destruct (Hn2 n1 l1 Hreg1') as (v1 & Hv1 & Hname1).
  destruct (Hn2 n2 l2 Hreg2) as (v2 & Hv2 & Hname2).
  exists w1, l1, w2, l2, v1, v2. split_and!; try done.
  intros Hne ->. congruence.
Qed.

(** ** Scopes through other calls *)

Lemma step_scopes w k :
  scopes (step w k)
  = match k with
    | Call_Serve _ _ _ =>
        cancel (length (scopes w)) (WithCancel RootContext (scopes w)).2
    | Call_ServeBegin => (WithCancel RootContext (scopes w)).2
    | Call_ServeEnd g => cancel g (scopes w)
    | Call_Cancel => cancel RootContext (scopes w)
    | _ => scopes w
    end.
Proof.
  destruct k; simpl; use_frames w; try done.
  by destruct H as (_ & _ & _ & -> & _).
Qed.

(** X10: once [Cancel] was called, whatever is called afterwards, a
    request that begins gets a scope that is cancelled from the start. *)
Theorem requests_after_Cancel_start_cancelled name ks ks' :
  is_done
    (scopes (serve_begin (run_calls ks' (Cancel (run_calls ks (boot name))))).2)
    (serve_begin (run_calls ks' (Cancel (run_calls ks (boot name))))).1
  = true.
Proof.
  set (w := run_calls ks (boot name)).
  assert (Hroot : is_done (scopes (Cancel w)) RootContext = true).
  { destruct (run_calls_keeps_scopes ks (boot name) 0 (mkScope None false))
      as (sc & Hsc & _); [done|].
    apply (cancel_self RootContext (scopes w)). eauto. }
  assert (Hlater : is_done (scopes (run_calls ks' (Cancel w))) RootContext = true).
  { unfold is_done in *.
    destruct (scopes (Cancel w) !! RootContext) as [sc|] eqn:Hsc; [|done].
    destruct (run_calls_keeps_scopes ks' (Cancel w) _ _ Hsc) as (sc' & -> & _ & Hd).
    auto. }
  unfold is_done at 1. simpl.
  by rewrite lookup_app_r, Nat.sub_diag.
Qed.

Lemma flat_scopes_init : flat_scopes init_scopes.
Proof.
  split; [by eexists|]. intros [|i] sc H Hne; [done|]. done.
Qed.

Lemma flat_scopes_WithCancel ss :
  flat_scopes ss → flat_scopes (WithCancel RootContext ss).2.
Proof.
  intros [(root & Hroot & Hp) Hflat]. split; simpl.
  - exists root. split; [by apply lookup_app_l_Some | done].
  - intros i sc [Hi|[_ Hi]]%lookup_app_Some Hne; [eauto|].
    by apply list_lookup_singleton_Some in Hi as [_ <-].
Qed.

Lemma flat_scopes_cancel target ss : flat_scopes ss → flat_scopes (cancel target ss).
Proof.
  intros [(root & Hroot & Hp) Hflat]. unfold cancel. split.
  - rewrite list_lookup_imap, Hroot. simpl. eexists. split; [reflexivity | done].
  - intros i sc. rewrite list_lookup_imap.
    destruct (ss !! i) as [sc0|] eqn:Hi; [|done]. simpl. intros [= <-] Hne. simpl.
    eauto.
Qed.

Lemma step_flat_scopes w k : flat_scopes (scopes w) → flat_scopes (scopes (step w k)).
Proof.
  intros Hflat. rewrite step_scopes.
  destruct k; auto using flat_scopes_WithCancel, flat_scopes_cancel.
Qed.

(** In a flat store, cancelling a scope other than the root leaves every
    other scope as it was. *)
Lemma descends_flat ss fuel target i :
  flat_scopes ss → target ≠ RootContext → i ≠ target →
  descends ss fuel target i = false.
Proof.
  intros [(root & Hroot & Hp) Hflat] Ht Hi.
  destruct fuel as [|fuel]; simpl; rewrite bool_decide_eq_false_2 by done; [done|].
  simpl. destruct (ss !! i) as [sc|] eqn:Hsc; [|done]. simpl.
  destruct (decide (i = RootContext)) as [->|Hne].
  - rewrite Hroot in Hsc. injection Hsc as <-. by rewrite Hp.
  - rewrite (Hflat i sc Hsc Hne).
    destruct fuel as [|fuel]; simpl;
      rewrite (bool_decide_eq_false_2 (RootContext = target)) by done; [done|].
    simpl. rewrite Hroot. simpl. by rewrite Hp.
Qed.

Lemma cancel_other target ss i :
  flat_scopes ss → target ≠ RootContext → i ≠ target →
  is_done (cancel target ss) i = is_done ss i.
Proof.
  intros Hflat Ht Hi. unfold is_done, cancel. rewrite list_lookup_imap.
  destruct (ss !! i) as [sc|]; [|done]. simpl.
  by rewrite descends_flat, orb_false_r.
Qed.

Lemma WithCancel_other parent ss i :
  i < length ss → is_done (WithCancel parent ss).2 i = is_done ss i.
Proof. intros Hi. unfold is_done. simpl. by rewrite lookup_app_l. Qed.

Lemma step_scopes_length w k : length (scopes w) ≤ length (scopes (step w k)).
Proof.
  rewrite step_scopes. unfold cancel.
  destruct k; simpl; rewrite ?length_imap, ?length_app; lia.
Qed.

(** A scope that is not cancelled stays so through a call that cancels
    neither it nor the root. *)
Lemma step_keeps_live w k g :
  flat_scopes (scopes w) → g < length (scopes w) →
  cancels g k = false → cancels RootContext k = false →
  is_done (scopes (step w k)) g = is_done (scopes w) g.
Proof.
  intros Hflat Hg Hk Hk0. rewrite step_scopes.
  destruct k; simpl in *; try done.
  - rewrite cancel_other; [by apply WithCancel_other | by apply flat_scopes_WithCancel
                           | pose proof (proj1 Hflat) as (root & Hr & _);
                             apply lookup_lt_Some in Hr; unfold RootContext in *; lia
                           | lia].
  - by apply WithCancel_other.
  - apply bool_decide_eq_false in Hk. apply bool_decide_eq_false in Hk0.
    apply cancel_other; [done | naive_solver | naive_solver].
Qed.

Lemma run_calls_flat_scopes ks w :
  flat_scopes (scopes w) → flat_scopes (scopes (run_calls ks w)).
Proof.
  revert w. induction ks as [|k ks IH]; intros w H; simpl; [done|].
  apply IH. by apply step_flat_scopes.
Qed.

Lemma cancels_root g k : cancels g k = false → cancels RootContext k = false.
Proof.
  destruct k; simpl; try done.
  intros H%bool_decide_eq_false. apply bool_decide_eq_false_2.
  intros [Heq|Heq]; apply H; by right.
Qed.

Lemma run_calls_keeps_live ks w g :
  flat_scopes (scopes w) → g < length (scopes w) →
  forallb (fun k => negb (cancels g k)) ks = true →
  is_done (scopes (run_calls ks w)) g = is_done (scopes w) g.
Proof.
  revert w. induction ks as [|k ks IH]; intros w Hflat Hg Hks; simpl in *; [done|].
  apply andb_prop in Hks as [Hk Hks]. apply negb_true_iff in Hk.
  rewrite IH; [| by apply step_flat_scopes
               | pose proof (step_scopes_length w k); lia | done].
  apply step_keeps_live; eauto using cancels_root.
Qed.

(** X11: while the root is not cancelled, the scope of a request in
    flight stays uncancelled through every call other than [Cancel] and the
    end of that very request: configuration, other requests beginning and
    ending, requests served in between. *)
Theorem request_scope_stays_live name ks ks' :
  is_done (scopes (run_calls ks (boot name))) RootContext = false →
  forallb (fun k => negb (cancels (serve_begin (run_calls ks (boot name))).1 k)) ks'
  = true →
  is_done (scopes (run_calls ks' (serve_begin (run_calls ks (boot name))).2))
          (serve_begin (run_calls ks (boot name))).1 = false.
Proof.
  set (w := run_calls ks (boot name)). intros Hroot Hks.
  assert (Hflat : flat_scopes (scopes w)).
  { apply run_calls_flat_scopes, flat_scopes_init. }
  rewrite run_calls_keeps_live; [| by apply flat_scopes_WithCancel
                                 | simpl; rewrite length_app; simpl; lia | done].
  unfold is_done. simpl. rewrite lookup_app_r, Nat.sub_diag by lia. simpl.
  exact Hroot.
Qed.

(** ** The cells no append writes *)

Lemma keeps_cells_refl σ l k : keeps_cells σ σ l k.
Proof. intros a H. eauto. Qed.

Lemma keeps_cells_trans σ1 σ2 σ3 l k :
  keeps_cells σ1 σ2 l k → keeps_cells σ2 σ3 l k → keeps_cells σ1 σ3 l k.
Proof.
  intros H12 H23 a H. destruct (H12 a H) as (a2 & H2 & Ht2).
  destruct (H23 a2 H2) as (a3 & H3 & Ht3). exists a3. split; [done | congruence].
Qed.

(** [append] writes no cell below the length of its argument. *)
Lemma append_cells σ s xs σ' s' l k :
  wf_slice σ s → append σ s xs = (σ', s') →
  (sl_ptr s = Some l → k ≤ sl_len s) →
  keeps_cells σ σ' l k.
Proof.
  intros Hwf Happ Hk a Ha.
  assert (Hgrown : ∀ x, (σ', s') = (σ ++ [x], mkSlice (Some (length σ))
                                               (sl_len s + length xs)) →
                        ∃ a', σ' !! l = Some a' ∧
                              take k (arr_data a') = take k (arr_data a)).
  { intros x [= -> ->]. exists a. split; [by apply lookup_app_l_Some | done]. }
  unfold append in Happ.
  destruct (sl_ptr s) as [l0|] eqn:Hptr.
  - assert (Hsa : slice_array σ s = σ !! l0).
    { unfold slice_array. by rewrite Hptr. }
    rewrite Hsa in Happ.
    pose proof Hwf as Hwf'. unfold wf_slice in Hwf'. rewrite Hptr in Hwf'.
    destruct Hwf' as (a0 & Ha0 & Hla). rewrite Ha0 in Happ.
    destruct (Nat.leb_spec (sl_len s + length xs) (arr_cap a0)); [|by eapply Hgrown].
    injection Happ as <- <-.
    destruct (decide (l = l0)) as [->|Hne].
    + rewrite Ha0 in Ha. injection Ha as <-. eexists. split.
      * apply list_lookup_insert_eq. by eapply lookup_lt_Some.
      * simpl. rewrite take_app_le by (rewrite length_take; specialize (Hk eq_refl); lia).
        rewrite take_take. f_equal. specialize (Hk eq_refl). lia.
    + exists a. split; [by rewrite list_lookup_insert_ne | done].
  - destruct (Nat.eqb_spec (sl_len s + length xs) 0); [|by eapply Hgrown].
    injection Happ as <- <-. eauto.
Qed.

Lemma below_owners_frame w w' l k :
  app_middleware (app w') = app_middleware (app w) →
  (∀ c ctrl', ctrls w' !! c = Some ctrl' →
     (∃ ctrl, ctrls w !! c = Some ctrl ∧ ctrl_middleware ctrl' = ctrl_middleware ctrl)
     ∨ ctrl_middleware ctrl' = nil_slice) →
  below_owners w l k → below_owners w' l k.
Proof.
  intros Ha Hc [Hba Hbc]. split; [by rewrite Ha|].
  intros c ctrl' Hc' Hptr.
  destruct (Hc c ctrl' Hc') as [(ctrl & Hl & Heq)|Heq]; rewrite Heq in *; [eauto|done].
Qed.

Lemma MiddlewareChain_cells c w l k :
  wf_world w → below_owners w l k →
  keeps_cells (arrays w) (arrays (MiddlewareChain c w).1) l k ∧
  below_owners (MiddlewareChain c w).1 l k.
Proof.
  intros Hwf Hb. unfold MiddlewareChain.
  destruct (ctrls w !! c) as [ctrl|]; [|split; [apply keeps_cells_refl | done]].
  destruct (append _ _ _) as [σ' s'] eqn:Happ. simpl. split.
  - eapply append_cells; [by apply wf_app | exact Happ | apply Hb].
  - eapply below_owners_frame; [| |exact Hb]; simpl; eauto.
Qed.

Lemma Application_Use_cells m w l k :
  wf_world w → l < length (arrays w) → below_owners w l k →
  keeps_cells (arrays w) (arrays (Application_Use m w)) l k ∧
  below_owners (Application_Use m w) l k.
Proof.
  intros Hwf Hl [Hba Hbc]. unfold Application_Use.
  destruct (append _ _ _) as [σ' s'] eqn:Happ. simpl.
  destruct (append_spec _ _ _ _ _ (wf_app w Hwf) Happ)
    as (Hel & Hwfs & _ & _ & Hptr & _).
  split.
  - eapply append_cells; [by apply wf_app | exact Happ | exact Hba].
  - split; simpl; [|exact Hbc].
    intros Hs'. destruct Hptr as [Hp|Hp]; rewrite Hp in Hs'.
    + pose proof (elems_length _ _ Hwfs) as H1.
      pose proof (elems_length _ _ (wf_app w Hwf)) as H2.
      rewrite Hel, length_app in H1. specialize (Hba Hs'). lia.
    + injection Hs' as <-. lia.
Qed.

Lemma ApplicationController_Use_cells c m w l k :
  wf_world w → l < length (arrays w) → below_owners w l k →
  keeps_cells (arrays w) (arrays (ApplicationController_Use c m w).1) l k ∧
  below_owners (ApplicationController_Use c m w).1 l k.
Proof.
  intros Hwf Hl [Hba Hbc]. unfold ApplicationController_Use.
  destruct (ctrls w !! c) as [ctrl|] eqn:Hc;
    [|split; [apply keeps_cells_refl | by split]].
  destruct (append _ _ _) as [σ' s'] eqn:Happ. simpl.
  destruct (append_spec _ _ _ _ _ (wf_ctrl w Hwf c ctrl Hc) Happ)
    as (Hel & Hwfs & _ & _ & Hptr & _).
  assert (Hlt : c < length (ctrls w)) by (by eapply lookup_lt_Some).
  split.
  - eapply append_cells; [by eapply wf_ctrl | exact Happ | by apply (Hbc c ctrl)].
  - split; simpl; [exact Hba|].
    intros c' ctrl' Hc' Hs'. destruct (decide (c' = c)) as [->|Hne].
    + rewrite list_lookup_insert_eq in Hc' by done. injection Hc' as <-. simpl in *.
      destruct Hptr as [Hp|Hp]; rewrite Hp in Hs'.
      * pose proof (elems_length _ _ Hwfs) as H1.
        pose proof (elems_length _ _ (wf_ctrl w Hwf c ctrl Hc)) as H2.
        rewrite Hel, length_app in H1. specialize (Hbc c ctrl Hc Hs'). lia.
      * injection Hs' as <-. lia.
    + rewrite list_lookup_insert_ne in Hc' by done. eauto.
Qed.

Lemma cells_frame w w' l k :
  arrays w' = arrays w → app_middleware (app w') = app_middleware (app w) →
  (∀ c ctrl', ctrls w' !! c = Some ctrl' →
     (∃ ctrl, ctrls w !! c = Some ctrl ∧ ctrl_middleware ctrl' = ctrl_middleware ctrl)
     ∨ ctrl_middleware ctrl' = nil_slice) →
  below_owners w l k →
  keeps_cells (arrays w) (arrays w') l k ∧ below_owners w' l k.
Proof.
  intros Ha Hm Hc Hb. split.
  - rewrite Ha. apply keeps_cells_refl.
  - by eapply below_owners_frame.
Qed.

Lemma cells_frame_same w w' l k :
  arrays w' = arrays w → app_middleware (app w') = app_middleware (app w) →
  ctrls w' = ctrls w → below_owners w l k →
  keeps_cells (arrays w) (arrays w') l k ∧ below_owners w' l k.
Proof.
  intros Ha Hm Hc. apply cells_frame; [done | done |]. rewrite Hc. eauto.
Qed.

Lemma NewController_cells resName w l k :
  below_owners w l k →
  keeps_cells (arrays w) (arrays (NewController resName w).1) l k ∧
  below_owners (NewController resName w).1 l k.
Proof.
  apply cells_frame; [done | done |]. unfold NewController. simpl.
  intros c ctrl' [Hc|[_ Hs]]%lookup_app_Some; [eauto|].
  apply list_lookup_singleton_Some in Hs as [_ <-]. by right.
Qed.

Lemma ApplicationController_SetErrorHandler_cells c handler w l k :
  below_owners w l k →
  keeps_cells (arrays w) (arrays (ApplicationController_SetErrorHandler c handler w).1)
    l k ∧
  below_owners (ApplicationController_SetErrorHandler c handler w).1 l k.
Proof.
  unfold ApplicationController_SetErrorHandler.
  destruct (ctrls w !! c) as [ctrl|] eqn:Hc; cbn [fst];
    [|intros; split; [apply keeps_cells_refl | done]].
  assert (Hlt : c < length (ctrls w)) by (by eapply lookup_lt_Some).
  apply cells_frame; [done | done |]. simpl.
  intros c' ctrl' Hc'. left. destruct (decide (c' = c)) as [->|Hne].
  - rewrite list_lookup_insert_eq in Hc' by done. injection Hc' as <-. eauto.
  - rewrite list_lookup_insert_ne in Hc' by done. eauto.
Qed.

Lemma ServeFiles_cells os path filename w l k :
  wf_world w → below_owners w l k →
  keeps_cells (arrays w) (arrays (ServeFiles os path filename w).1) l k ∧
  below_owners (ServeFiles os path filename w).1 l k.
Proof.
  intros Hwf Hb. unfold ServeFiles.
  destruct (Contains path ":"); [split; [apply keeps_cells_refl | done]|].
  destruct (os_Stat os filename); [split; [apply keeps_cells_refl | done]|].
  set (w1 := Info _ _ w).
  destruct (frame_step w w1 Hwf) as [Hwf1 _]; try done.
  destruct (cells_frame_same w w1 l k) as [Hk1 Hb1]; try done.
  destruct (NewController_wf "FileServer" w1 Hwf1) as [Hwf2 _].
  destruct (NewController_cells "FileServer" w1 l k Hb1) as [Hk2 Hb2].
  unfold NewController in *. simpl in Hwf2, Hk2, Hb2. cbv zeta.
  set (w2 := set_ctrls _ w1) in *.
  set (h := serveFile _ _ _).
  pose proof (HandleFunc_world (length (ctrls w1)) "Serve" h None w2) as Hw.
  destruct (MiddlewareChain_cells (length (ctrls w1)) w2 l k Hwf2 Hb2) as [Hk3 Hb3].
  rewrite <- Hw in Hk3, Hb3.
  assert (Hk13 : keeps_cells (arrays w)
                   (arrays (HandleFunc (length (ctrls w1)) "Serve" h None w2).1) l k).
  { eapply keeps_cells_trans; [|exact Hk3].
    eapply keeps_cells_trans; [exact Hk1 | exact Hk2]. }
  destruct (HandleFunc _ _ _ _ _) as [w3 [handle|v]]; simpl in *; [|done].
  destruct (ServeMux_Handle_frame "GET" path handle w3) as (Ha & Happ & Hc & _).
  destruct (cells_frame_same w3 (ServeMux_Handle "GET" path handle w3).1 l k)
    as [Hk4 Hb4]; try done; [by rewrite Happ|].
  destruct (ServeMux_Handle "GET" path handle w3) as [w4 [[]|v]]; simpl in *;
    (split; [by eapply keeps_cells_trans | done]).
Qed.

Lemma step_cells w k' l k :
  wf_world w → l < length (arrays w) → below_owners w l k →
  keeps_cells (arrays w) (arrays (step w k')) l k ∧ below_owners (step w k') l k.
Proof.
  intros Hwf Hl Hb. destruct k'; cbn [step].
  - by apply Application_Use_cells.
  - by apply cells_frame_same.
  - destruct (GetVersion_frame name w) as (Ha & Hm & Hc & _).
    by apply cells_frame_same.
  - by apply NewController_cells.
  - by apply ApplicationController_Use_cells.
  - by apply ApplicationController_SetErrorHandler_cells.
  - by apply MiddlewareChain_cells.
  - rewrite HandleFunc_world. by apply MiddlewareChain_cells.
  - by apply ServeFiles_cells.
  - by apply cells_frame_same.
  - by apply cells_frame_same.
  - by apply cells_frame_same.
  - by apply cells_frame_same.
Qed.

Lemma run_calls_cells ks w l k :
  wf_world w → l < length (arrays w) → below_owners w l k →
  keeps_cells (arrays w) (arrays (run_calls ks w)) l k.
Proof.
  revert w. induction ks as [|k' ks IH]; intros w Hwf Hl Hb; simpl.
  - apply keeps_cells_refl.
  - destruct (step_cells w k' l k Hwf Hl Hb) as [Hk Hb'].
    destruct (step_wf w k' Hwf) as [Hwf' [Hmem _]].
    eapply keeps_cells_trans; [exact Hk|]. apply IH; [done | | done].
    destruct (lookup_lt_is_Some_2 (arrays w) l Hl) as [a Ha].
    destruct (Hmem l a Ha) as (a' & Ha' & _). by eapply lookup_lt_Some.
Qed.

Lemma HandleFunc_chain_place c name h d w w1 hf :
  wf_world w → HandleFunc c name h d w = (w1, Done hf) →
  ctrls w1 = ctrls w ∧ app w1 = app w ∧
  (sl_ptr (hf_chain hf) = sl_ptr (app_middleware (app w)) ∨
   sl_ptr (hf_chain hf) = Some (length (arrays w))).
Proof.
  intros Hwf Hmount.
  destruct (HandleFunc_mounted _ _ _ _ _ _ _ Hmount) as [ctrl0 Hc].
  unfold HandleFunc, MiddlewareChain in Hmount. rewrite Hc in Hmount.
  destruct (append _ _ _) as [σ' s] eqn:Happ.
  destruct (append_spec _ _ _ _ _ (wf_app w Hwf) Happ)
    as (_ & Hwfs & _ & _ & Hptr & _).
  simpl in Hmount. rewrite (wrap_loop_spec _ σ' s (terminal h) Hwfs) in Hmount.
  unfold mbind, mret, outcome_bind, outcome_ret in Hmount.
  injection Hmount as <- <-. done.
Qed.

(** X12: on the malformed-payload path, the middleware the application
    had when the action was mounted still wrap the substitute handler,
    outermost and in order, whatever was called since; only the
    controller's part of the chain, of unchanged length, may read
    differently. *)
Theorem application_middleware_still_wrap name0 ks0 c name h d w1 hf ks :
  HandleFunc c name h d (run_calls ks0 (boot name0)) = (w1, Done hf) →
  ∃ rest,
    length rest = length (ctrl_chain (run_calls ks0 (boot name0)) c) ∧
    elems (arrays (run_calls ks w1)) (hf_chain hf)
    = app_chain (run_calls ks0 (boot name0)) ++ rest ∧
    ∀ t, compose (elems (arrays (run_calls ks w1)) (hf_chain hf)) t
         = compose (app_chain (run_calls ks0 (boot name0))) (compose rest t).
Proof.
  intros Hmount.
  destruct (run_calls_wf ks0 (boot name0) (wf_boot name0)) as [Hwf _].
  set (w0 := run_calls ks0 (boot name0)) in *.
  destruct (HandleFunc_fields _ _ _ _ _ _ _ Hwf Hmount)
    as (_ & _ & _ & _ & Hwfs & Hel & Hwf1 & _).
  destruct (HandleFunc_chain_place _ _ _ _ _ _ _ Hwf Hmount) as (Hctrls & Happ & Hplace).
  destruct (run_calls_wf ks w1 Hwf1) as [_ [Hmem _]].
  pose proof (wf_slice_mono _ _ _ Hmem Hwfs) as Hwfs'.
  pose proof (elems_length _ _ Hwfs) as Hlen1.
  pose proof (elems_length _ _ Hwfs') as Hlen2.
  pose proof (elems_length _ _ (wf_app w0 Hwf)) as Hlena. fold (app_chain w0) in Hlena.
  rewrite Hel, length_app in Hlen1.
  set (s := hf_chain hf) in *. set (n := length (app_chain w0)) in *.
  assert (Htake : take n (elems (arrays (run_calls ks w1)) s) = app_chain w0).
  { destruct (sl_ptr s) as [l|] eqn:Hptr.
    - pose proof Hwfs as Hx. unfold wf_slice in Hx. rewrite Hptr in Hx.
      destruct Hx as (a & Ha & Hla).
      assert (Hb : below_owners w1 l n).
      { split.
        - rewrite Happ. lia.
        - intros c' ctrl' Hc' Hp'. exfalso. rewrite Hctrls in Hc'.
          destruct Hplace as [Hp|Hp].
          + eapply (wf_sep_app w0 Hwf c' ctrl' l); [done | done |]. congruence.
          + injection Hp as ->.
            pose proof (wf_slice_ptr_lt _ _ _ (wf_ctrl w0 Hwf c' ctrl' Hc') Hp'). lia. }
      destruct (run_calls_cells ks w1 l n Hwf1 (lookup_lt_Some _ _ _ Ha) Hb a Ha)
        as (a' & Ha' & Hcells).
      rewrite (elems_take _ _ _ _ Hptr Ha'), take_take.
      replace (n `min` sl_len s) with n by lia. rewrite Hcells.
      rewrite <- (take_app_length (app_chain w0) (ctrl_chain w0 c)), <- Hel.
      rewrite (elems_take _ _ _ _ Hptr Ha), take_take. fold n.
      by replace (n `min` sl_len s) with n by lia.
    - pose proof Hwfs as Hx. unfold wf_slice in Hx. rewrite Hptr in Hx.
      assert (Hnil : app_chain w0 = []).
      { apply length_zero_iff_nil. unfold n in *. lia. }
      unfold n. by rewrite Hnil. }
  exists (drop n (elems (arrays (run_calls ks w1)) s)).
  assert (Heq : elems (arrays (run_calls ks w1)) s
                = app_chain w0 ++ drop n (elems (arrays (run_calls ks w1)) s)).
  { rewrite <- (take_drop n (elems (arrays (run_calls ks w1)) s)) at 1.
    by rewrite Htake. }
  split_and!.
  - rewrite length_drop. lia.
  - exact Heq.
  - intros t. unfold compose. by rewrite Heq at 1; rewrite foldr_app.
Qed.

(** ** The generator: temporary names and clean-up *)

Lemma itoa_inj a b : itoa a = itoa b → a = b.
Proof.
  assert (Hn : ∀ z, Z.to_int z ≠ Decimal.Pos Decimal.Nil ∧
                    Z.to_int z ≠ Decimal.Neg Decimal.Nil).
  { intros [|p|p]; split; simpl; try discriminate; intros [= H];
      exact (DecimalPos.Unsigned.to_uint_nonnil p H). }
  unfold itoa. intros H. apply DecimalZ.to_int_inj.
  destruct (Hn a) as [Ha1 Ha2], (Hn b) as [Hb1 Hb2].
  pose proof (NilZero.isi _ Ha1 Ha2) as Ia.
  pose proof (NilZero.isi _ Hb1 Hb2) as Ib.
  rewrite H in Ia. congruence.
Qed.

Lemma itoa_nonempty z : itoa z ≠ "".
Proof.
  assert (Hu : ∀ d, NilZero.string_of_uint d ≠ "") by (by intros []).
  unfold itoa. destruct (Z.to_int z); simpl; [apply Hu | discriminate].
Qed.

Lemma tempvar_in_range n :
  (0 ≤ n < 2 ^ 63 - 1)%Z →
  tempvar n = ((n + 1)%Z, if (n =? 0)%Z then "c" else "c" +:+ itoa (n + 1)).
Proof.
  intros Hn. unfold tempvar, wrap64.
  rewrite Z.mod_small by lia.
  replace (n + 1 + 2 ^ 63 - 2 ^ 63)%Z with (n + 1)%Z by lia.
  destruct (Z.eqb_spec (n + 1) 1), (Z.eqb_spec n 0); try lia; reflexivity.
Qed.

Lemma tempvars_in_range k : ∀ n,
  (0 ≤ n)%Z → (n + Z.of_nat k < 2 ^ 63)%Z →
  (tempvars k n).1 = (n + Z.of_nat k)%Z ∧
  ∀ x, x ∈ (tempvars k n).2 →
       ∃ i, (n < i ≤ n + Z.of_nat k)%Z ∧
            x = if (i =? 1)%Z then "c" else "c" +:+ itoa i.
Proof.
  induction k as [|k IH]; intros n H0 Hk.
  - simpl. split; [lia|]. intros x Hx. by apply elem_of_nil in Hx.
  - cbn [tempvars]. rewrite tempvar_in_range by lia.
    destruct (IH (n + 1)%Z ltac:(lia) ltac:(lia)) as [Hc Hx].
    destruct (tempvars k (n + 1)) as [c xs]. simpl in *. split; [lia|].
    intros x [->|Hin]%elem_of_cons.
    + exists (n + 1)%Z. split; [lia|].
      destruct (Z.eqb_spec (n + 1) 1), (Z.eqb_spec n 0); try lia; reflexivity.
    + destruct (Hx x Hin) as (i & Hi & ->). exists i. split; [lia|done].
Qed.

Lemma tempvar_name_inj i j :
  (if (i =? 1)%Z then "c" else "c" +:+ itoa i)
  = (if (j =? 1)%Z then "c" else "c" +:+ itoa j) → i = j.
Proof.
  destruct (Z.eqb_spec i 1), (Z.eqb_spec j 1); simpl; intros H.
  - lia.
  - injection H as H. symmetry in H. by apply itoa_nonempty in H.
  - injection H as H. by apply itoa_nonempty in H.
  - injection H as H. by apply itoa_inj.
Qed.

(** X13: as long as the counter stays below 2^63, the names that
    successive calls of tempvar return are pairwise different, and the
    counter goes up by one per call; the first call of the program
    returns c. *)
Theorem tempvar_names_unique k n :
  (0 ≤ n)%Z → (n + Z.of_nat k < 2 ^ 63)%Z →
  (tempvars k n).1 = (n + Z.of_nat k)%Z ∧
  NoDup (tempvars k n).2 ∧
  length (tempvars k n).2 = k ∧
  (n = 0%Z → (tempvars k n).2 !! 0 = (if k is 0 then None else Some "c")).
Proof.
  revert n. induction k as [|k IH]; intros n H0 Hk.
  - simpl. split_and!; [lia | constructor | done | done].
  - pose proof (tempvars_in_range k (n + 1)%Z ltac:(lia) ltac:(lia)) as [_ Hx].
    destruct (IH (n + 1)%Z ltac:(lia) ltac:(lia)) as (Hc & Hnd & Hlen & _).
    cbn [tempvars]. rewrite tempvar_in_range by lia.
    destruct (tempvars k (n + 1)) as [c xs]. simpl in *. split_and!.
    + lia.
    + constructor; [|done]. intros Hin.
      destruct (Hx _ Hin) as (i & Hi & Heq).
      assert (Hname : (if (n =? 0)%Z then "c" else "c" +:+ itoa (n + 1))
                      = (if (n + 1 =? 1)%Z then "c" else "c" +:+ itoa (n + 1))).
      { destruct (Z.eqb_spec (n + 1) 1), (Z.eqb_spec n 0); try lia; reflexivity. }
      rewrite Hname in Heq. apply tempvar_name_inj in Heq. lia.
    + by rewrite Hlen.
    + by intros ->.
Qed.

(** The counter wraps at the top of the range: the name that follows
    carries a minus sign. *)
Lemma tempvar_wraps :
  tempvar (2 ^ 63 - 1) = ((- 2 ^ 63)%Z, "c-9223372036854775808").
Proof. by vm_compute. Qed.



(* ================================================================== *)
(** * Part V: the further properties on concrete inputs                *)
(* ================================================================== *)

(** An action that would fail, on a context that has its response. *)
Lemma terminal_skips_action_after_response_witness :
  ResponseWritten answered = true ∧
  terminal (refuse "boom") (handlers_of cellar bottles) answered
  = (answered, Done None).
Proof.
  split; [reflexivity|].
  exact (terminal_skips_action_after_response (refuse "boom")
           (handlers_of cellar bottles) answered eq_refl).
Defined.

(** An action that returns nil, on a fresh context. *)
Lemma terminal_returns_nil_witness :
  ResponseWritten (fresh_context (post 0)) = false ∧
  idle (fresh_context (post 0)) = (fresh_context (post 0), Done None) ∧
  terminal idle (handlers_of cellar bottles) (fresh_context (post 0))
  = (fresh_context (post 0), Done None).
Proof.
  refine (conj eq_refl (conj eq_refl _)).
  exact (proj1 (proj2 (terminal_returns_nil idle (handlers_of cellar bottles)
                         (fresh_context (post 0))) eq_refl)
           (fresh_context (post 0)) eq_refl).
Defined.

(** A request without body on the cellar, served after a middleware was
    registered on the application. *)
Lemma request_without_payload_witness :
  HandleFunc 0 "show" idle None cellar = (cellar, Done show_closure) ∧
  ctrls (run_calls [Call_Use (tracer "late")] cellar) !! 0 = Some bottles ∧
  (ContentLength (post 0) ≤ 0)%Z ∧
  (serve show_closure (post 0) [] (run_calls [Call_Use (tracer "late")] cellar)).2
  = (_ ← compose (app_chain cellar ++ ctrl_chain cellar 0)
           (terminal idle
              (handlers_of (run_calls [Call_Use (tracer "late")] cellar) bottles));
     respond_unhandled
       (handlers_of (run_calls [Call_Use (tracer "late")] cellar) bottles))
      (action_context "show" (post 0)).
Proof.
  refine (conj eq_refl (conj eq_refl (conj _ _))); [done|].
  exact (request_without_payload "cellar" [Call_NewController "bottles"] 0 "show"
           idle None cellar show_closure [Call_Use (tracer "late")] (post 0) []
           bottles eq_refl eq_refl (or_introl eq_refl)).
Defined.

(** A request with a body whose payload is accepted, on the cellar. *)
Lemma request_with_payload_witness :
  HandleFunc 0 "update" idle (Some accept) cellar = (cellar, Done update_closure) ∧
  ctrls cellar !! 0 = Some bottles ∧
  (0 < ContentLength (post 2))%Z ∧
  accept (action_context "update" (post 2))
  = ((accept (action_context "update" (post 2))).1, Done None) ∧
  (serve update_closure (post 2) [] cellar).2
  = (_ ← compose (app_chain cellar ++ ctrl_chain cellar 0)
           (terminal idle (handlers_of cellar bottles));
     respond_unhandled (handlers_of cellar bottles))
      (accept (action_context "update" (post 2))).1.
Proof.
  refine (conj eq_refl (conj eq_refl (conj eq_refl (conj eq_refl _)))).
  exact (proj1 (request_with_payload "cellar" [Call_NewController "bottles"] 0
                  "update" idle accept cellar update_closure [] (post 2) [] bottles
                  eq_refl eq_refl eq_refl)
           (accept (action_context "update" (post 2))).1 eq_refl).
Defined.

(** Both handlers on a context that has its response. *)
Lemma error_handlers_log_failed_write_witness :
  ResponseWritten answered = true ∧
  (∃ ctx', DefaultErrorHandler (errorString "boom") answered = (ctx', Done tt) ∧
           ResponseStatus ctx' = 200%Z ∧ ctx_Body ctx' = "ok" ∧
           map lr_msg (ctx_Log ctx')
           = ["failed to send default error handler response"]) ∧
  (∃ ctx', TerseErrorHandler (errorString "boom") answered = (ctx', Done tt) ∧
           ResponseStatus ctx' = 200%Z ∧ ctx_Body ctx' = "ok" ∧
           map lr_msg (ctx_Log ctx')
           = ["failed to send terse error handler response"]).
Proof.
  split; [reflexivity|].
  exact (error_handlers_log_failed_write (errorString "boom") answered eq_refl).
Defined.

(** A path with a parameter, and a file that is not on the disk. *)
Lemma ServeFiles_rejects_witness :
  ":"%char ∈ list_ascii_of_string "/files/:name" ∧
  ServeFiles (disk ["/www/index.html"]) "/files/:name" "/www/index.html" cellar
  = (cellar, Done (Some (errorString
       "path may only include wildcards that match the entire end of the URL (e.g. *filepath)"))) ∧
  (":"%char ∉ list_ascii_of_string "/index.html") ∧
  os_Stat (disk ["/www/index.html"]) "/www/missing.html"
  = Some (errorString "stat /www/missing.html: no such file or directory") ∧
  ServeFiles (disk ["/www/index.html"]) "/index.html" "/www/missing.html" cellar
  = (cellar, Done (Some (errorString
       "ServeFiles: stat /www/missing.html: no such file or directory"))).
Proof.
  assert (Hin : ":"%char ∈ list_ascii_of_string "/files/:name").
  { apply (bool_decide_unpack _). exact I. }
  assert (Hnotin : ":"%char ∉ list_ascii_of_string "/index.html").
  { apply (bool_decide_unpack _). exact I. }
  refine (conj Hin (conj _ (conj Hnotin (conj eq_refl _)))).
  - exact (proj1 (ServeFiles_rejects (disk ["/www/index.html"]) "/files/:name"
                    "/www/index.html" cellar) Hin).
  - exact (proj1 (proj2 (ServeFiles_rejects (disk ["/www/index.html"]) "/index.html"
                           "/www/missing.html" cellar))
             (errorString "stat /www/missing.html: no such file or directory")
             Hnotin eq_refl).
Defined.

(** A handler set on the cellar's controller, before a middleware and a
    second controller are added. *)
Lemma controller_error_handler_overrides_witness :
  ctrls cellar !! 0 = Some bottles ∧
  forallb (fun k => negb (sets_error_handler k))
    [Call_Use (tracer "m1"); Call_NewController "accounts"] = true ∧
  ∃ ctrl',
    ctrls (run_calls [Call_Use (tracer "m1"); Call_NewController "accounts"]
             (ApplicationController_SetErrorHandler 0 (Some teapot) cellar).1)
      !! 0 = Some ctrl' ∧
    ApplicationController_ErrorHandler ctrl' = Some teapot ∧
    ∀ err ctx,
      HandleError
        (handlers_of
           (run_calls [Call_Use (tracer "m1"); Call_NewController "accounts"]
              (ApplicationController_SetErrorHandler 0 (Some teapot) cellar).1)
           ctrl') err ctx
      = teapot err ctx.
Proof.
  refine (conj eq_refl (conj eq_refl _)).
  exact (proj1 (controller_error_handler_overrides cellar 0 bottles teapot
                  [Call_Use (tracer "m1"); Call_NewController "accounts"]
                  eq_refl eq_refl)).
Defined.

(** A handler set on the cellar, and a controller made afterwards. *)
Lemma application_error_handler_applies_witness :
  forallb (fun k => negb (sets_error_handler k)) [Call_NewController "accounts"]
  = true ∧
  ctrls (run_calls [Call_NewController "accounts"]
           (Application_SetErrorHandler (Some teapot) cellar)) !! 1
  = Some (mkApplicationController [("app", "cellar"); ("ctrl", "accounts")] None
            nil_slice) ∧
  Application_ErrorHandler
    (app (run_calls [Call_NewController "accounts"]
            (Application_SetErrorHandler (Some teapot) cellar)))
  = Some teapot ∧
  ∀ err ctx,
    HandleError
      (handlers_of
         (run_calls [Call_NewController "accounts"]
            (Application_SetErrorHandler (Some teapot) cellar))
         (mkApplicationController [("app", "cellar"); ("ctrl", "accounts")] None
            nil_slice)) err ctx
    = teapot err ctx.
Proof.
  refine (conj eq_refl (conj eq_refl _)).
  exact (application_error_handler_applies cellar (Some teapot)
           [Call_NewController "accounts"] 1
           (mkApplicationController [("app", "cellar"); ("ctrl", "accounts")] None
              nil_slice)
           eq_refl eq_refl eq_refl).
Defined.

(** Two versions of the cellar. *)
Lemma versions_carry_their_names_witness :
  "v1" ≠ "v2" ∧
  ∃ w1 l1 w2 l2 v1 v2,
    GetVersion "v1" cellar = (w1, Done l1) ∧
    GetVersion "v2" w1 = (w2, Done l2) ∧
    vheap w2 !! l1 = Some v1 ∧ Version v1 = "v1" ∧
    vheap w2 !! l2 = Some v2 ∧ Version v2 = "v2" ∧
    l1 ≠ l2.
Proof.
  assert (Hne : "v1" ≠ "v2") by discriminate.
  split; [exact Hne|].
  destruct (versions_carry_their_names "cellar" [Call_NewController "bottles"]
              "v1" "v2")
    as (w1 & l1 & w2 & l2 & v1 & v2 & H1 & H2 & H3 & H4 & H5 & H6 & H7).
  exists w1, l1, w2, l2, v1, v2.
  exact (conj H1 (conj H2 (conj H3 (conj H4 (conj H5 (conj H6 (H7 Hne))))))).
Defined.

(** A request in flight on the cellar while another request begins and
    ends and a middleware is registered. *)
Lemma request_scope_stays_live_witness :
  is_done (scopes cellar) RootContext = false ∧
  (serve_begin cellar).1 = 1 ∧
  forallb (fun k => negb (cancels 1 k))
    [Call_ServeBegin; Call_ServeEnd 2; Call_Use (tracer "m1")] = true ∧
  is_done
    (scopes (run_calls [Call_ServeBegin; Call_ServeEnd 2; Call_Use (tracer "m1")]
               serving_cellar)) 1
  = false.
Proof.
  refine (conj eq_refl (conj eq_refl (conj eq_refl _))).
  exact (request_scope_stays_live "cellar" [Call_NewController "bottles"]
           [Call_ServeBegin; Call_ServeEnd 2; Call_Use (tracer "m1")]
           eq_refl eq_refl).
Defined.

(** An action of the busy application, read after another controller's
    action was mounted. *)
Lemma application_middleware_still_wrap_witness :
  ∃ w1 hf,
    HandleFunc 0 "create" idle (Some (refuse "unexpected EOF")) busy = (w1, Done hf) ∧
    ∃ rest,
      length rest = length (ctrl_chain busy 0) ∧
      elems (arrays (run_calls [Call_HandleFunc 1 "list" idle None] w1)) (hf_chain hf)
      = app_chain busy ++ rest ∧
      ∀ t, compose
             (elems (arrays (run_calls [Call_HandleFunc 1 "list" idle None] w1))
                (hf_chain hf)) t
           = compose (app_chain busy) (compose rest t).
Proof.
  eexists _, _. split; [reflexivity|].
  exact (application_middleware_still_wrap "cellar"
           [Call_Use (tracer "m1"); Call_Use (tracer "m2"); Call_Use (tracer "m3");
            Call_NewController "bottles"; Call_NewController "accounts";
            Call_ControllerUse 0 (tracer "a"); Call_ControllerUse 1 (tracer "b")]
           0 "create" idle (Some (refuse "unexpected EOF")) _ _
           [Call_HandleFunc 1 "list" idle None] eq_refl).
Defined.

(** The first three names of a program. *)
Lemma tempvar_names_unique_witness :
  (0 ≤ 0)%Z ∧ (0 + Z.of_nat 3 < 2 ^ 63)%Z ∧
  tempvars 3 0 = (3%Z, ["c"; "c2"; "c3"]) ∧
  (tempvars 3 0).1 = (0 + Z.of_nat 3)%Z ∧
  NoDup (tempvars 3 0).2 ∧
  length (tempvars 3 0).2 = 3 ∧
  (0%Z = 0%Z → (tempvars 3 0).2 !! 0 = Some "c").
Proof.
  assert (H0 : (0 ≤ 0)%Z) by lia.
  assert (H3 : (0 + Z.of_nat 3 < 2 ^ 63)%Z) by reflexivity.
  refine (conj H0 (conj H3 (conj eq_refl _))).
  exact (tempvar_names_unique 3 0 H0 H3).
Defined.
